(** * networkx-astar-path: A* search with history-sensitive edge costs

    A shallow embedding of [networkx_astar_path/astar.py] and the
    verification of its specification.

    Numbers are exact rationals ([Qc], canonical fractions with Leibniz
    equality).  The two dictionaries of the search ([enqueued] and
    [explored]) are finite maps; the adjacency of one node is an
    association list, because the search iterates over it in insertion
    order.  The frontier is the list of the entries that are in the heap;
    [heappop] takes the least entry out of it, which is what [heapq]
    guarantees for a totally ordered key.  Loops that Python runs without a
    bound take a [fuel] argument that bounds the number of iterations. *)

From Stdlib Require Import QArith Qcanon.
From stdpp Require Import base option numbers list gmap strings relations.

Local Open Scope Qc_scope.

(** ** Exceptions and results *)

(** The exceptions the module raises itself, and [Propagated] for an
    exception that escapes from a collaborator: a user callable, an edge
    attribute lookup, a dictionary access. *)
Inductive exn : Set :=
  | NodeNotFound
  | NetworkXNoPath
  | NotImplementedError
  | Propagated (name : string).

Definition collaborator_exn (e : exn) : Prop := ∃ name, e = Propagated name.

(** What a call of a weight or heuristic callable produces. *)
Inductive answer : Set :=
  | Value (x : Qc)
  | Throws (name : string).

Inductive result (A : Type) : Type :=
  | Ok (a : A)
  | Raise (e : exn)
  | OutOfFuel.
Arguments Ok {A} a.
Arguments Raise {A} e.
Arguments OutOfFuel {A}.

Definition result_bind {A B} (f : A → result B) (m : result A) : result B :=
  match m with
  | Ok a => f a
  | Raise e => Raise e
  | OutOfFuel => OutOfFuel
  end.

Global Instance result_mbind : MBind result := @result_bind.
Global Instance result_mret : MRet result := @Ok.

(** Two results of the same kind, with values related by [R]. *)
Definition result_rel {A} (R : A → A → Prop) (r1 r2 : result A) : Prop :=
  match r1, r2 with
  | Ok a1, Ok a2 => R a1 a2
  | Raise e1, Raise e2 => e1 = e2
  | OutOfFuel, OutOfFuel => True
  | _, _ => False
  end.

Definition call (a : answer) : result Qc :=
  match a with
  | Value x => Ok x
  | Throws name => Raise (Propagated name)
  end.

(** [heapq.heappop] on a frontier kept as the list of its items: the
    least item for [lt] and the remaining items, in their order. *)
Fixpoint pop_least {A} (lt : A → A → Prop) `{!RelDecision lt}
    (queue : list A) : option (A * list A) :=
  match queue with
  | [] => None
  | x :: l =>
      match pop_least lt l with
      | None => Some (x, [])
      | Some (m, r) => if decide (lt m x) then Some (m, x :: r) else Some (x, l)
      end
  end.

Section astar.
Context {Node : Type} `{Countable Node}.

(** ** Data model *)

Definition Edge : Type := Node * Node.

(** A graph: for every node the association list of its neighbours with
    the attribute dictionary of the edge, in insertion order.  In a
    multigraph the entry of a neighbour stands for the dictionary of the
    parallel edges; the search reads the neighbours only, never the data. *)
Record Graph : Type := {
  is_multigraph : bool;
  adj : gmap Node (list (Node * gmap string Qc))
}.

Definition WeightFunction : Type := Graph → option Edge → Edge → answer.
Definition HeuristicFunction : Type := Node → Node → answer.

Inductive weight_spec : Type :=
  | AttrName (name : string)
  | Callable (f : WeightFunction).

(** [n in graph] *)
Definition has_node (G : Graph) (n : Node) : Prop := is_Some (adj G !! n).

(** [graph.get_edge_data(u, v)], [None] when there is no such edge *)
Definition get_edge_data (G : Graph) (u v : Node) : option (gmap string Qc) :=
  nbrs ← adj G !! u;
  ip ← list_find (λ p, p.1 = v) nbrs;
  Some ip.2.2.

(** The lambda [_weight_function] returns for an attribute name. *)
Definition attr_weight (weight_name : string) : WeightFunction :=
  λ _G prev_edge cur_edge,
    match get_edge_data _G cur_edge.1 cur_edge.2 with
    | None => Throws "TypeError"
    | Some data =>
        match data !! weight_name with
        | Some x => Value x
        | None => Throws "KeyError"
        end
    end.

Definition _weight_function (graph : Graph) (weight : weight_spec)
  : result WeightFunction :=
  match weight with
  | Callable f => Ok f
  | AttrName weight_name =>
      if is_multigraph graph then Raise NotImplementedError
      else Ok (attr_weight weight_name)
  end.

Definition _default_heuristic : HeuristicFunction := λ u v, Value 0.

(** ** The frontier *)

(** A heap item: (priority, counter, node, cost to reach, parent,
    explored path). *)
Record entry : Type := Entry {
  e_prio : Qc;
  e_count : nat;
  e_node : Node;
  e_dist : Qc;
  e_parent : option Node;
  e_path : list Node
}.

(** Tuple comparison as far as it is ever decided: the priorities first,
    the counters when the priorities are equal. *)
Definition entry_lt (a b : entry) : Prop :=
  e_prio a < e_prio b ∨ (e_prio a = e_prio b ∧ (e_count a < e_count b)%nat).

Global Instance entry_lt_dec : RelDecision entry_lt.
Proof. intros a b. unfold entry_lt. apply _. Defined.

Definition heappop (queue : list entry) : option (entry * list entry) :=
  pop_least entry_lt queue.

Definition heappush (queue : list entry) (item : entry) : list entry :=
  queue ++ [item].

(** ** The search *)

Record state : Type := State {
  queue : list entry;
  enqueued : gmap Node (Qc * Qc);
  explored : gmap Node (option Node);
  counter : nat
}.

(** [(explored_path[-2], curnode)], or [None] on [IndexError] *)
Definition prev_edge_of (explored_path : list Node) (curnode : Node)
  : option Edge :=
  match rev explored_path with
  | _ :: u :: _ => Some (u, curnode)
  | _ => None
  end.

(** One round of the [for neighbor, w in graph[curnode].items()] loop. *)
Definition relax (graph : Graph) (weight : WeightFunction)
    (heuristic : HeuristicFunction) (target curnode : Node) (dist : Qc)
    (explored_path : list Node) (st : state) (neighbor : Node)
  : result state :=
  let cur_edge := (curnode, neighbor) in
  let prev_edge := prev_edge_of explored_path curnode in
  w ← call (weight graph prev_edge cur_edge);
  let ncost := dist + w in
  oh ← match enqueued st !! neighbor with
       | Some (qcost, h) =>
           if decide (qcost ≤ ncost) then Ok None else Ok (Some h)
       | None => h ← call (heuristic neighbor target); Ok (Some h)
       end;
  match oh with
  | None => Ok st
  | Some h =>
      Ok {| queue := heappush (queue st)
                       (Entry (ncost + h) (counter st) neighbor ncost
                              (Some curnode) (explored_path ++ [neighbor]));
            enqueued := <[neighbor := (ncost, h)]> (enqueued st);
            explored := explored st;
            counter := S (counter st) |}
  end.

Fixpoint expand (graph : Graph) (weight : WeightFunction)
    (heuristic : HeuristicFunction) (target curnode : Node) (dist : Qc)
    (explored_path : list Node) (st : state) (neighbors : list Node)
  : result state :=
  match neighbors with
  | [] => Ok st
  | neighbor :: rest =>
      st' ← relax graph weight heuristic target curnode dist explored_path
                  st neighbor;
      expand graph weight heuristic target curnode dist explored_path st' rest
  end.

(** The inner [while node is not None] loop and the final [reverse]. *)
Fixpoint reconstruct (fuel : nat) (explored : gmap Node (option Node))
    (node : option Node) (path : list Node) : result (list Node) :=
  match node with
  | None => Ok (rev path)
  | Some n =>
      match fuel with
      | O => OutOfFuel
      | S fuel' =>
          match explored !! n with
          | None => Raise (Propagated "KeyError")
          | Some p => reconstruct fuel' explored p (path ++ [n])
          end
      end
  end.

(** What one round of the [while queue] loop leads to. *)
Inductive progress : Type :=
  | Found (path : list Node)
  | Running (st : state).

(** The body of the [while queue] loop for the popped item [e]; [rest] is
    the frontier without it. *)
Definition body (fuel : nat) (graph : Graph) (weight : WeightFunction)
    (heuristic : HeuristicFunction) (target : Node) (st : state)
    (e : entry) (rest : list entry) : result progress :=
  let curnode := e_node e in
  let dist := e_dist e in
  let parent := e_parent e in
  let explored_path := e_path e in
  if decide (curnode = target) then
    path ← reconstruct fuel (explored st) parent [curnode]; Ok (Found path)
  else
    skip ← match explored st !! curnode with
           | Some None => Ok true
           | Some (Some _) =>
               match enqueued st !! curnode with
               | Some (qcost, h) => Ok (bool_decide (qcost < dist))
               | None => Raise (Propagated "KeyError")
               end
           | None => Ok false
           end;
    if (skip : bool) then
      Ok (Running {| queue := rest; enqueued := enqueued st;
                     explored := explored st; counter := counter st |})
    else
      nbrs ← match adj graph !! curnode with
             | Some l => Ok l
             | None => Raise (Propagated "KeyError")
             end;
      st' ← expand graph weight heuristic target curnode dist explored_path
                   {| queue := rest; enqueued := enqueued st;
                      explored := <[curnode := parent]> (explored st);
                      counter := counter st |}
                   (nbrs.*1);
      Ok (Running st').

Definition step (fuel : nat) (graph : Graph) (weight : WeightFunction)
    (heuristic : HeuristicFunction) (target : Node) (st : state)
  : option (result progress) :=
  match heappop (queue st) with
  | None => None
  | Some (e, rest) => Some (body fuel graph weight heuristic target st e rest)
  end.

(** The [while queue] loop; [fuel0] bounds the inner loop, [fuel] the
    rounds of this one. *)
Fixpoint search (fuel0 fuel : nat) (graph : Graph) (weight : WeightFunction)
    (heuristic : HeuristicFunction) (target : Node) (st : state)
  : result (list Node) :=
  match step fuel0 graph weight heuristic target st with
  | None => Raise NetworkXNoPath
  | Some r =>
      match fuel with
      | O => OutOfFuel
      | S fuel' =>
          match r with
          | Ok (Found path) => Ok path
          | Ok (Running st') =>
              search fuel0 fuel' graph weight heuristic target st'
          | Raise e => Raise e
          | OutOfFuel => OutOfFuel
          end
      end
  end.

Definition init_state (source : Node) : state :=
  {| queue := [Entry 0 0 source 0 None [source]];
     enqueued := ∅; explored := ∅; counter := 1 |}.

Definition astar_path (fuel : nat) (graph : Graph) (source target : Node)
    (heuristic : option HeuristicFunction) (weight : weight_spec)
  : result (list Node) :=
  if decide (¬ has_node graph source ∨ ¬ has_node graph target) then
    Raise NodeNotFound
  else
    let heuristic := default _default_heuristic heuristic in
    weight ← _weight_function graph weight;
    search fuel fuel graph weight heuristic target (init_state source).

(** [sum(weight(graph, u, v) for u, v in pairs)], from the left. *)
Fixpoint sum_weights (graph : Graph) (weight : WeightFunction) (acc : Qc)
    (pairs : list (option Edge * option Edge)) : result Qc :=
  match pairs with
  | [] => Ok acc
  | (u, v) :: pairs' =>
      x ← match v with
          | Some cur => call (weight graph u cur)
          | None => Raise (Propagated "TypeError")
          end;
      sum_weights graph weight (acc + x) pairs'
  end.

Definition astar_path_length (fuel : nat) (graph : Graph)
    (source target : Node) (heuristic : option HeuristicFunction)
    (weight : weight_spec) : result Qc :=
  if decide (¬ has_node graph source ∨ ¬ has_node graph target) then
    Raise NodeNotFound
  else
    weight ← _weight_function graph weight;
    path ← astar_path fuel graph source target heuristic (Callable weight);
    let path_edges : list (option Edge) :=
      None :: (Some <$> zip (removelast path) (tail path)) in
    sum_weights graph weight 0 (zip (removelast path_edges) (tail path_edges)).

(** ** Graph vocabulary of the specification *)

(** There is an edge from [u] to [v]: [v in graph[u]]. *)
Definition edge (G : Graph) (u v : Node) : Prop :=
  ∃ nbrs, adj G !! u = Some nbrs ∧ v ∈ nbrs.*1.


Definition reachable (G : Graph) (u v : Node) : Prop := rtc (edge G) u v.

(** Consecutive nodes of [l] are joined by an edge. *)
Fixpoint linked (G : Graph) (l : list Node) : Prop :=
  match l with
  | x :: l' =>
      match l' with
      | y :: _ => edge G x y ∧ linked G l'
      | [] => True
      end
  | [] => True
  end.

Definition is_path (G : Graph) (s t : Node) (l : list Node) : Prop :=
  head l = Some s ∧ last l = Some t ∧ linked G l.

(** The cost function answers with a non-negative number on every edge of
    the graph, whatever the previous edge. *)
Definition costs_nonneg (G : Graph) (w : WeightFunction) : Prop :=
  ∀ prev u v, edge G u v → ∃ x, w G prev (u, v) = Value x ∧ 0 ≤ x.

(** The answer is a number that is not negative. *)
Definition nonneg_answer (a : answer) : Prop :=
  match a with
  | Value x => 0 ≤ x
  | Throws _ => False
  end.

Global Instance nonneg_answer_dec a : Decision (nonneg_answer a).
Proof. destruct a; simpl; apply _. Defined.

(** The cost function answers with a number on every edge of the graph. *)
Definition costs_defined (G : Graph) (w : WeightFunction) : Prop :=
  ∀ prev u v, edge G u v → ∃ x, w G prev (u, v) = Value x.


(** The state after [neighbor] has been pushed with edge cost [wv] and
    heuristic value [hv] while [curnode] is being expanded. *)
Definition pushed (curnode : Node) (dist : Qc) (explored_path : list Node)
    (st : state) (neighbor : Node) (wv hv : Qc) : state :=
  {| queue := heappush (queue st)
                (Entry (dist + wv + hv) (counter st) neighbor (dist + wv)
                       (Some curnode) (explored_path ++ [neighbor]));
     enqueued := <[neighbor := (dist + wv, hv)]> (enqueued st);
     explored := explored st;
     counter := S (counter st) |}.

(** The state in which the loop over the neighbours starts. *)
Definition finalized (st : state) (e : entry) (rest : list entry) : state :=
  {| queue := rest; enqueued := enqueued st;
     explored := <[e_node e := e_parent e]> (explored st);
     counter := counter st |}.

(** The state after a popped item was skipped. *)
Definition skipped (st : state) (rest : list entry) : state :=
  {| queue := rest; enqueued := enqueued st;
     explored := explored st; counter := counter st |}.

(** The best known cost of [v] is at most [x] / less than [x]. *)
Definition enq_le (st : state) (v : Node) (x : Qc) : Prop :=
  ∃ c hv, enqueued st !! v = Some (c, hv) ∧ c ≤ x.
Definition enq_lt (st : state) (v : Node) (x : Qc) : Prop :=
  ∃ c hv, enqueued st !! v = Some (c, hv) ∧ c < x.

(** [neighbor] is pushed with cost [ncost]: it is met for the first time
    and the heuristic answers [hv], or [ncost] beats its best known cost and
    [hv] is the heuristic value kept in the table. *)
Definition improves (h : HeuristicFunction) (t : Node) (st : state)
    (neighbor : Node) (ncost hv : Qc) : Prop :=
  (enqueued st !! neighbor = None ∧ h neighbor t = Value hv) ∨
  (∃ c, enqueued st !! neighbor = Some (c, hv) ∧ ncost < c).

(** The popped item [e] is skipped. *)
Definition stale (st : state) (e : entry) : Prop :=
  explored st !! e_node e = Some None ∨
  ∃ p, explored st !! e_node e = Some (Some p) ∧
       enq_lt st (e_node e) (e_dist e).

(** The popped item [e] is finalized and expanded. *)
Definition admissible (st : state) (e : entry) : Prop :=
  explored st !! e_node e = None ∨
  ∃ p c hv, explored st !! e_node e = Some (Some p) ∧
            enqueued st !! e_node e = Some (c, hv) ∧ e_dist e ≤ c.

(** ** Cost of a path, as the specification words it *)

(** The cost function applied to the consecutive edges of the path, in path
    order; [prev] is the edge before [u], if any. *)
Fixpoint path_cost_from (G : Graph) (w : WeightFunction)
    (prev : option Edge) (u : Node) (rest : list Node) (acc : Qc)
  : result Qc :=
  match rest with
  | [] => Ok acc
  | v :: rest' =>
      x ← call (w G prev (u, v));
      path_cost_from G w (Some (u, v)) v rest' (acc + x)
  end.

Definition path_cost (G : Graph) (w : WeightFunction) (path : list Node)
  : result Qc :=
  match path with
  | [] => Ok 0
  | u :: rest => path_cost_from G w None u rest 0
  end.

(** ** Runs of the loop *)

(** The state after [n] rounds of the [while queue] loop, if the loop
    goes on for so long. *)
Fixpoint rounds (n fuel0 : nat) (graph : Graph) (weight : WeightFunction)
    (heuristic : HeuristicFunction) (target : Node) (st : state)
  : option state :=
  match n with
  | O => Some st
  | S n' =>
      match step fuel0 graph weight heuristic target st with
      | Some (Ok (Running st')) =>
          rounds n' fuel0 graph weight heuristic target st'
      | _ => None
      end
  end.

(** The sequence numbers in the frontier are pairwise different and
    smaller than the next number of the counter. *)
Definition counters_fresh (st : state) : Prop :=
  NoDup (e_count <$> queue st) ∧
  ∀ e, e ∈ queue st → (e_count e < counter st)%nat.

(** Two states that differ at most in the arrangement of the frontier. *)
Definition same_frontier (st1 st2 : state) : Prop :=
  queue st1 ≡ₚ queue st2 ∧ enqueued st1 = enqueued st2 ∧
  explored st1 = explored st2 ∧ counter st1 = counter st2.

Definition progress_rel (R : state → state → Prop) (p1 p2 : progress)
  : Prop :=
  match p1, p2 with
  | Found l1, Found l2 => l1 = l2
  | Running st1, Running st2 => R st1 st2
  | _, _ => False
  end.

(** ** Invariants of the search

    [s] is the source and [t] the target of the call. *)

(** How the frontier and the two tables hang together, whatever the
    costs are. *)
Record structure_inv (G : Graph) (s : Node) (st : state) : Prop := {
  si_fresh : counters_fresh st;
  si_initial : ∀ e, e ∈ queue st → e_parent e = None → st = init_state s;
  si_parent : ∀ e p, e ∈ queue st → e_parent e = Some p →
    edge G p (e_node e) ∧ is_Some (explored st !! p);
  si_link : ∀ v p, explored st !! v = Some (Some p) →
    edge G p v ∧ is_Some (explored st !! p);
  si_root : ∀ v, explored st !! v = Some None → v = s;
  si_reach : ∀ e, e ∈ queue st → reachable G s (e_node e);
  si_enq : ∀ e, e ∈ queue st → e_parent e ≠ None →
    enq_le st (e_node e) (e_dist e);
  si_distinct : ∀ e1 e2, e1 ∈ queue st → e2 ∈ queue st →
    e_node e1 = e_node e2 → e_dist e1 = e_dist e2 → e_count e1 = e_count e2;
  si_explored_node : ∀ v, is_Some (explored st !! v) → has_node G v;
  si_source : st = init_state s ∨ explored st !! s = Some None
}.



(** Ghost state: for every node the cost at which it was finalized last
    and the round in which that happened. *)
Record ghost : Type := Ghost {
  g_dist : Node → Qc;
  g_time : Node → nat;
  g_now : nat
}.

Definition key_lt (gh : ghost) (p v : Node) : Prop :=
  g_dist gh p < g_dist gh v ∨
  (g_dist gh p = g_dist gh v ∧ (g_time gh p < g_time gh v)%nat).

Global Instance key_lt_dec gh : RelDecision (key_lt gh).
Proof. intros p v. unfold key_lt. apply _. Defined.




(** The parent links from [v] up to the root, [v] first. *)
Inductive chain (ex : gmap Node (option Node)) : Node → list Node → Prop :=
  | chain_root v : ex !! v = Some None → chain ex v [v]
  | chain_step v p l :
      ex !! v = Some (Some p) → chain ex p l → chain ex v (v :: l).

(** ** A bound on the number of rounds *)





(** ** A cycle of negative cost *)




(** ** The classic algorithm: A* with a cost per edge

    The search of section 4.2 of the specification with a cost function
    that sees the current edge only; a frontier item needs no path. *)


Record classic_entry : Type := ClassicEntry {
  c_prio : Qc;
  c_count : nat;
  c_node : Node;
  c_dist : Qc;
  c_parent : option Node
}.

Definition classic_lt (a b : classic_entry) : Prop :=
  c_prio a < c_prio b ∨ (c_prio a = c_prio b ∧ (c_count a < c_count b)%nat).

Global Instance classic_lt_dec : RelDecision classic_lt.
Proof. intros a b. unfold classic_lt. apply _. Defined.












(** ** The search with a heuristic that never overestimates *)

(** The heuristic is not negative at the target, and its value at a node
    is at most the cost of every walk from the node to the target. *)
Definition never_overestimates (G : Graph) (w : WeightFunction)
    (h : HeuristicFunction) (t : Node) : Prop :=
  (∀ hv, h t t = Value hv → 0 ≤ hv) ∧
  ∀ (v : Node) hv (l : list Node) c, h v t = Value hv → is_path G v t l →
    path_cost G w l = Ok c → hv ≤ c.


End astar.

(** ** The graph of the test suite *)

Definition weight_attr (z : Z) : gmap string Qc :=
  {[ "weight"%string := Qc_of_Z z ]}.

(** S→A1 (−2), A1→T (7), S→A2, A2→B2, B2→C2, C2→T (1 each) *)
Definition test_graph : Graph (Node:=string) :=
  {| is_multigraph := false;
     adj := list_to_map
       [ ("S", [("A1", weight_attr (-2)); ("A2", weight_attr 1)]);
         ("A1", [("T", weight_attr 7)]);
         ("T", []);
         ("A2", [("B2", weight_attr 1)]);
         ("B2", [("C2", weight_attr 1)]);
         ("C2", [("T", weight_attr 1)]) ]%string |}.

(** The ['weight'] attribute of the data of an edge. *)
Definition edge_weight (graph : Graph (Node:=string)) (e : Edge (Node:=string))
  : answer :=
  match get_edge_data graph e.1 e.2 with
  | None => Throws "TypeError"
  | Some data =>
      match data !! "weight"%string with
      | Some x => Value x
      | None => Throws "KeyError"
      end
  end.

(** The history-dependent cost function of the test suite: the weight of
    the current edge divided by the weight of the previous edge. *)
Definition dependent_weight : WeightFunction (Node:=string) :=
  λ graph prev_edge cur_edge,
    match prev_edge with
    | None => edge_weight graph cur_edge
    | Some prev =>
        match edge_weight graph prev with
        | Throws name => Throws name
        | Value prev_weight =>
            match edge_weight graph cur_edge with
            | Throws name => Throws name
            | Value cur_weight =>
                if decide (prev_weight = 0) then Throws "ZeroDivisionError"
                else Value (cur_weight / prev_weight)
            end
        end
    end.

(** A multigraph without nodes. *)
Definition empty_multigraph : Graph (Node:=string) :=
  {| is_multigraph := true; adj := ∅ |}.

(** A multigraph with the two nodes S and T and one edge S→T. *)
Definition small_multigraph : Graph (Node:=string) :=
  {| is_multigraph := true;
     adj := list_to_map [ ("S", [("T", weight_attr 1)]); ("T", []) ]%string |}.

(** ** A graph on which a node is expanded twice

    S→A (3), S→B (1), B→A (1), A→T (100), with the heuristic 10 for B and 0
    elsewhere: no cost is negative and the heuristic never overestimates
    the remaining cost. *)
Definition detour_graph : Graph (Node:=string) :=
  {| is_multigraph := false;
     adj := list_to_map
       [ ("S", [("A", weight_attr 3); ("B", weight_attr 1)]);
         ("A", [("T", weight_attr 100)]);
         ("B", [("A", weight_attr 1)]);
         ("T", []) ]%string |}.

Definition detour_heuristic : HeuristicFunction (Node:=string) :=
  λ u v, if decide (u = "B"%string) then Value (Qc_of_Z 10) else Value 0.




(** Two arrangements of one frontier with two items of equal priority. *)
Definition tied_frontier : state (Node:=string) :=
  {| queue := [Entry 1 1 "A2" 1 (Some "S") ["S"; "A2"];
               Entry 1 2 "A1" 1 (Some "S") ["S"; "A1"]]%string;
     enqueued := {[ "A1"%string := (1, 0); "A2"%string := (1, 0) ]};
     explored := {[ "S"%string := None ]};
     counter := 3 |}.

Definition tied_frontier_swapped : state (Node:=string) :=
  {| queue := [Entry 1 2 "A1" 1 (Some "S") ["S"; "A1"];
               Entry 1 1 "A2" 1 (Some "S") ["S"; "A2"]]%string;
     enqueued := {[ "A1"%string := (1, 0); "A2"%string := (1, 0) ]};
     explored := {[ "S"%string := None ]};
     counter := 3 |}.

(** S→A (1), S→T without attributes: the edge S→T has no weight. *)
Definition unweighted_edge_graph : Graph (Node:=string) :=
  {| is_multigraph := false;
     adj := list_to_map
       [ ("S", [("A", weight_attr 1); ("T", ∅)]);
         ("A", []);
         ("T", []) ]%string |}.

(** * Proofs *)

(** A decidable statement about concrete data, by evaluation. *)
Ltac solve_decide := apply (bool_decide_unpack _); vm_compute; exact I.

Section basics.
Context {Node : Type} `{Countable Node}.
Implicit Types (G : Graph (Node:=Node)) (st : state (Node:=Node))
  (e : entry (Node:=Node)) (q : list (entry (Node:=Node))).

Lemma pop_least_None {A} (lt : A → A → Prop) `{!RelDecision lt} (l : list A) :
  pop_least lt l = None ↔ l = [].
Proof.
  destruct l as [|x l]; simpl; [done|].
  split; [|done]. destruct (pop_least lt l) as [[m r]|]; [|done].
  by destruct (decide (lt m x)).
Qed.

Lemma pop_least_perm {A} (lt : A → A → Prop) `{!RelDecision lt}
    (l : list A) m r :
  pop_least lt l = Some (m, r) → l ≡ₚ m :: r.
Proof.
  revert m r. induction l as [|x l IH]; intros m r; simpl; [done|].
  destruct (pop_least lt l) as [[m' r']|] eqn:Hl.
  - destruct (decide (lt m' x)); intros [= <- <-]; [|done].
    rewrite (IH _ _ eq_refl). apply perm_swap.
  - apply pop_least_None in Hl as ->. by intros [= <- <-].
Qed.

Lemma heappop_None q : heappop q = None ↔ q = [].
Proof. apply pop_least_None. Qed.

Lemma heappop_perm q m r : heappop q = Some (m, r) → q ≡ₚ m :: r.
Proof. apply pop_least_perm. Qed.

Lemma heappop_elem q m r e :
  heappop q = Some (m, r) → e ∈ q ↔ e = m ∨ e ∈ r.
Proof. intros Hq%heappop_perm. rewrite Hq. apply elem_of_cons. Qed.

Lemma relax_Ok G w h t cur dist path st nb st' :
  relax G w h t cur dist path st nb = Ok st' →
  ∃ wv, w G (prev_edge_of path cur) (cur, nb) = Value wv ∧
    ((st' = st ∧ enq_le st nb (dist + wv)) ∨
     (∃ hv, st' = pushed cur dist path st nb wv hv ∧
            improves h t st nb (dist + wv) hv)).
Proof.
  unfold relax.
  destruct (w G (prev_edge_of path cur) (cur, nb)) as [wv|] eqn:Hw; [|done].
  simpl. intros Hr. exists wv. split; [done|].
  destruct (enqueued st !! nb) as [[c h0]|] eqn:Henq.
  - destruct (decide (c ≤ dist + wv)) as [Hle|Hnle]; simpl in Hr.
    + left. injection Hr as <-. split; [done|]. by exists c, h0.
    + right. exists h0. injection Hr as <-. split; [done|].
      right. exists c. split; [done|]. by apply Qclt_nge.
  - destruct (h nb t) as [hv|] eqn:Hh; [|done]. simpl in Hr.
    right. exists hv. injection Hr as <-. split; [done|]. by left.
Qed.

Lemma expand_ind G w h t cur dist path (P : state → Prop) nbrs st st' :
  expand G w h t cur dist path st nbrs = Ok st' →
  P st →
  (∀ st0 nb wv hv, nb ∈ nbrs → P st0 →
     w G (prev_edge_of path cur) (cur, nb) = Value wv →
     improves h t st0 nb (dist + wv) hv →
     P (pushed cur dist path st0 nb wv hv)) →
  P st'.
Proof.
  revert st. induction nbrs as [|nb nbrs IH]; intros st; simpl.
  - by intros [= <-].
  - destruct (relax G w h t cur dist path st nb) as [st1| |] eqn:Hr; [|done..].
    simpl. intros Hex HP Hstep.
    apply relax_Ok in Hr as (wv & Hw & [[-> _]|(hv & -> & Himp)]).
    + apply (IH st); [done..|]. intros ?????. apply Hstep. by right.
    + eapply IH; [done| |].
      * apply Hstep; [by left|done..].
      * intros ?????. apply Hstep. by right.
Qed.




Lemma body_Running fuel G w h t st e rest st' :
  body fuel G w h t st e rest = Ok (Running st') →
  e_node e ≠ t ∧
  ((st' = skipped st rest ∧ stale st e) ∨
   (admissible st e ∧
    ∃ nbrs, adj G !! e_node e = Some nbrs ∧
      expand G w h t (e_node e) (e_dist e) (e_path e) (finalized st e rest)
             (nbrs.*1) = Ok st')).
Proof.
  unfold body. destruct (decide (e_node e = t)) as [|Hne].
  { destruct (reconstruct _ _ _ _); done. }
  intros Hb. split; [done|].
  destruct (explored st !! e_node e) as [[p|]|] eqn:Hex.
  - destruct (enqueued st !! e_node e) as [[c h0]|] eqn:Henq; [|done].
    simpl in Hb. case_bool_decide as Hlt.
    + left. injection Hb as <-. split; [done|]. right. exists p.
      split; [done|]. by exists c, h0.
    + right. split.
      { right. exists p, c, h0. split_and!; [done..|]. by apply Qcle_ngt. }
      destruct (adj G !! e_node e) as [nbrs|]; [|done]. simpl in Hb.
      exists nbrs. split; [done|].
      destruct (expand _ _ _ _ _ _ _ _ _); [|done..]. by injection Hb as <-.
  - simpl in Hb. left. injection Hb as <-. split; [done|]. by left.
  - simpl in Hb. right. split; [by left|].
    destruct (adj G !! e_node e) as [nbrs|]; [|done]. simpl in Hb.
    exists nbrs. split; [done|].
    destruct (expand _ _ _ _ _ _ _ _ _); [|done..]. by injection Hb as <-.
Qed.

End basics.

(** ** Which exceptions the search can raise *)

Section exceptions.
Context {Node : Type} `{Countable Node}.
Implicit Types (G : Graph (Node:=Node)) (st : state (Node:=Node)).

Lemma call_raise a e : call a = Raise e → collaborator_exn e.
Proof. destruct a; [done|]. intros [= <-]. by eexists. Qed.

Lemma relax_raise G w h t cur dist path st nb e :
  relax G w h t cur dist path st nb = Raise e → collaborator_exn e.
Proof.
  unfold relax.
  destruct (call (w G _ _)) as [x| |] eqn:Hw; simpl; [|intros [= <-]|done].
  - destruct (enqueued st !! nb) as [[c h0]|].
    + by destruct (decide (c ≤ dist + x)).
    + destruct (call (h nb t)) eqn:Hh; simpl; [done| |done].
      intros [= <-]. by eapply call_raise.
  - by eapply call_raise.
Qed.

Lemma expand_raise G w h t cur dist path st nbrs e :
  expand G w h t cur dist path st nbrs = Raise e → collaborator_exn e.
Proof.
  revert st. induction nbrs as [|nb nbrs IH]; intros st; simpl; [done|].
  destruct (relax G w h t cur dist path st nb) eqn:Hr; simpl; [by apply IH| |done].
  intros [= <-]. by eapply relax_raise.
Qed.

Lemma reconstruct_raise fuel (ex : gmap Node (option Node)) node path e :
  reconstruct fuel ex node path = Raise e → collaborator_exn e.
Proof.
  revert node path. induction fuel as [|fuel IH]; intros [n|] path; simpl;
    try done.
  destruct (ex !! n); [by apply IH|]. intros [= <-]. by eexists.
Qed.

Lemma body_raise fuel G w h t st e0 rest e :
  body fuel G w h t st e0 rest = Raise e → collaborator_exn e.
Proof.
  unfold body. destruct (decide (e_node e0 = t)).
  { destruct (reconstruct _ _ _ _) eqn:Hr; simpl; [done| |done].
    intros [= <-]. by eapply reconstruct_raise. }
  assert (∀ st1 nbrs, (expand G w h t (e_node e0) (e_dist e0) (e_path e0) st1
       nbrs ≫= λ st', Ok (Running st')) = Raise e → collaborator_exn e)
    as Hexp.
  { intros st1 nbrs. destruct (expand _ _ _ _ _ _ _ _ _) eqn:Hx; simpl;
      [done| |done]. intros [= <-]. by eapply expand_raise. }
  assert (∀ st1, ((match adj G !! e_node e0 with
       | Some l => Ok l | None => Raise (Propagated "KeyError") end) ≫= λ nbrs,
       expand G w h t (e_node e0) (e_dist e0) (e_path e0) st1 (nbrs.*1)
       ≫= λ st', Ok (Running st')) = Raise e → collaborator_exn e) as Hadj.
  { intros st1. destruct (adj G !! e_node e0); simpl; [apply Hexp|].
    intros [= <-]. by eexists. }
  destruct (explored st !! e_node e0) as [[p|]|]; simpl.
  - destruct (enqueued st !! e_node e0) as [[c h0]|]; simpl.
    + case_bool_decide; [done|apply Hadj].
    + intros [= <-]. by eexists.
  - done.
  - apply Hadj.
Qed.

Lemma search_raise fuel0 fuel G w h t st e :
  search fuel0 fuel G w h t st = Raise e →
  e = NetworkXNoPath ∨ collaborator_exn e.
Proof.
  revert st. induction fuel as [|fuel IH]; intros st; simpl; unfold step;
    destruct (heappop (queue st)) as [[e0 rest]|]; try done;
    try (intros [= <-]; by left).
  destruct (body fuel0 G w h t st e0 rest) as [[path|st']| |] eqn:Hb;
    [done|apply IH| |done].
  intros [= <-]. right. by eapply body_raise.
Qed.

Lemma sum_weights_raise G w acc pairs e :
  sum_weights G w acc pairs = Raise e → collaborator_exn e.
Proof.
  revert acc. induction pairs as [|[u [v|]] pairs IH]; intros acc; simpl;
    [done| |].
  - destruct (call (w G u v)) eqn:Hc; simpl; [apply IH| |done].
    intros [= <-]. by eapply call_raise.
  - intros [= <-]. by eexists.
Qed.

Lemma astar_path_nodes fuel G s t h ws :
  has_node G s → has_node G t →
  astar_path fuel G s t h ws =
    _weight_function G ws ≫= λ w,
      search fuel fuel G w (default _default_heuristic h) t (init_state s).
Proof.
  intros Hs Ht. unfold astar_path.
  destruct (decide (¬ has_node G s ∨ ¬ has_node G t)) as [[?|?]|]; done.
Qed.

Lemma astar_path_missing fuel G s t h ws :
  ¬ has_node G s ∨ ¬ has_node G t →
  astar_path fuel G s t h ws = Raise NodeNotFound.
Proof. intros Hm. unfold astar_path. by rewrite decide_True. Qed.

Lemma astar_path_callable fuel G s t h ws w :
  _weight_function G ws = Ok w →
  astar_path fuel G s t h (Callable w) = astar_path fuel G s t h ws.
Proof. intros Hw. unfold astar_path. simpl. by rewrite Hw. Qed.

End exceptions.

(** ** The entry points: node check, weight resolution, trivial search *)

Section entry_points.
Context {Node : Type} `{Countable Node}.
Implicit Types (G : Graph (Node:=Node)) (st : state (Node:=Node))
  (path : list Node).


Lemma astar_path_Ok_nodes fuel G s t h ws path :
  astar_path fuel G s t h ws = Ok path → has_node G s ∧ has_node G t.
Proof.
  unfold astar_path.
  destruct (decide (¬ has_node G s ∨ ¬ has_node G t)) as [|Hn]; [done|].
  intros _. split; apply dec_stable; tauto.
Qed.

Lemma zip_removelast_tail {A} (l : list A) :
  zip (removelast l) (tail l) = zip l (tail l).
Proof.
  destruct l as [|x l]; [done|]. simpl. revert x.
  induction l as [|y l IH]; intros x; [done|].
  simpl. f_equal. apply IH.
Qed.

Lemma sum_weights_path_cost G w prev u rest acc :
  sum_weights G w acc
    (zip (prev :: (Some <$> zip (u :: rest) rest))
         (Some <$> zip (u :: rest) rest))
  = path_cost_from G w prev u rest acc.
Proof.
  revert prev u acc. induction rest as [|v rest IH]; intros prev u acc;
    [done|].
  simpl. destruct (call (w G prev (u, v))) as [x| |]; simpl; [|done..].
  apply (IH (Some (u, v)) v).
Qed.

Lemma length_recomputation G w path :
  sum_weights G w 0
    (zip (removelast (None :: (Some <$> zip (removelast path) (tail path))))
         (tail (None :: (Some <$> zip (removelast path) (tail path)))))
  = path_cost G w path.
Proof.
  rewrite (zip_removelast_tail (None :: _)), (zip_removelast_tail path).
  destruct path as [|u rest]; [done|]. apply sum_weights_path_cost.
Qed.

(** C3: whenever [astar_path] returns a path, [astar_path_length] returns
    the sum of the resolved cost function over the consecutive edges of
    that path, taken in path order, the first edge with no previous edge
    and every later edge with the edge before it. *)
Theorem astar_path_length_is_path_cost fuel G s t h ws path :
  astar_path fuel G s t h ws = Ok path →
  ∃ w, _weight_function G ws = Ok w ∧
       astar_path_length fuel G s t h ws = path_cost G w path.
Proof.
  intros Hp. destruct (astar_path_Ok_nodes _ _ _ _ _ _ _ Hp) as [Hs Ht].
  unfold astar_path_length.
  destruct (decide (¬ has_node G s ∨ ¬ has_node G t)) as [[?|?]|_];
    [done..|].
  destruct (_weight_function G ws) as [w| |] eqn:Hw.
  - exists w. split; [done|]. simpl.
    rewrite (astar_path_callable _ _ _ _ _ ws) by done. rewrite Hp. simpl.
    apply length_recomputation.
  - rewrite astar_path_nodes, Hw in Hp; done.
  - rewrite astar_path_nodes, Hw in Hp; done.
Qed.


(** C8, as amended: when the source and the target are nodes of the graph,
    an attribute name on a multigraph makes [astar_path] and
    [astar_path_length] raise [NotImplementedError], for every fuel and
    heuristic, hence before the search begins; a callable is returned
    unchanged by the weight resolution and is never rejected this way. *)
Theorem multigraph_attribute_rejected fuel G s t h :
  has_node G s → has_node G t → is_multigraph G = true →
  (∀ a, astar_path fuel G s t h (AttrName a) = Raise NotImplementedError ∧
        astar_path_length fuel G s t h (AttrName a)
          = Raise NotImplementedError) ∧
  (∀ f, _weight_function G (Callable f) = Ok f ∧
        astar_path fuel G s t h (Callable f) ≠ Raise NotImplementedError ∧
        astar_path_length fuel G s t h (Callable f)
          ≠ Raise NotImplementedError).
Proof.
  intros Hs Ht Hm. split.
  - intros a. rewrite astar_path_nodes by done. unfold astar_path_length.
    destruct (decide (¬ has_node G s ∨ ¬ has_node G t)) as [[?|?]|_];
      [done..|].
    simpl. by rewrite Hm.
  - intros f. split; [done|]. split.
    + rewrite astar_path_nodes by done. simpl.
      intros [?|[? ?]]%search_raise; done.
    + unfold astar_path_length.
      destruct (decide (¬ has_node G s ∨ ¬ has_node G t)) as [[?|?]|_];
        [done..|].
      simpl. rewrite astar_path_nodes by done. simpl.
      destruct (search _ _ _ _ _ _ _) as [path| |] eqn:Hp; simpl;
        [|intros [= ->]|done].
      * intros [? ?]%sum_weights_raise. done.
      * apply search_raise in Hp as [?|[? ?]]; done.
Qed.

(** C10: for a node [s] of the graph, [astar_path] from [s] to [s] returns
    [[s]] as soon as the weight specification resolves, whatever the
    heuristic and the cost function are, also when every call of them
    would throw: neither is called.  An attribute name on a multigraph
    still raises [NotImplementedError]. *)
Theorem astar_path_source_is_target fuel G s h ws :
  has_node G s →
  (∀ w, _weight_function G ws = Ok w →
        astar_path (S fuel) G s s h ws = Ok [s]) ∧
  (∀ a, ws = AttrName a → is_multigraph G = true →
        astar_path fuel G s s h ws = Raise NotImplementedError).
Proof.
  intros Hs. split.
  - intros w Hw. rewrite astar_path_nodes, Hw by done. simpl.
    unfold step, body. simpl. by rewrite decide_True.
  - intros a -> Hm. rewrite astar_path_nodes by done. simpl. by rewrite Hm.
Qed.

End entry_points.

(** ** The scenario of the test suite *)

(** C2: on the graph of the test suite, the plain attribute weight gives
    the path S, A2, B2, C2, T; the history-dependent cost function gives
    the path S, A1, T and the length −11/2. *)
Theorem test_suite_scenario :
  astar_path 20 test_graph "S" "T" None (AttrName "weight")
    = Ok ["S"; "A2"; "B2"; "C2"; "T"]%string ∧
  astar_path 20 test_graph "S" "T" None (Callable dependent_weight)
    = Ok ["S"; "A1"; "T"]%string ∧
  astar_path_length 20 test_graph "S" "T" None (Callable dependent_weight)
    = Ok (Q2Qc (-11 # 2)).
Proof.
  split_and!.
  - by vm_compute.
  - by vm_compute.
  - by vm_compute.
Qed.

Lemma astar_path_length_is_path_cost_witness :
  astar_path 20 test_graph "S" "T" None (Callable dependent_weight)
    = Ok ["S"; "A1"; "T"]%string ∧
  ∃ w, _weight_function test_graph (Callable dependent_weight) = Ok w ∧
       astar_path_length 20 test_graph "S" "T" None (Callable dependent_weight)
         = path_cost test_graph w ["S"; "A1"; "T"]%string.
Proof.
  assert (astar_path 20 test_graph "S" "T" None (Callable dependent_weight)
    = Ok ["S"; "A1"; "T"]%string) as Hp by (by vm_compute).
  split; [exact Hp|].
  exact (astar_path_length_is_path_cost 20 test_graph "S"%string "T"%string
           None (Callable dependent_weight) _ Hp).
Defined.

(** The claim C8 as stated fails when a node is missing: the node check
    comes first. *)
Lemma multigraph_missing_node_counterexample :
  is_multigraph empty_multigraph = true ∧
  astar_path 20 empty_multigraph "S" "T" None (AttrName "weight")
    = Raise NodeNotFound ∧
  astar_path_length 20 empty_multigraph "S" "T" None (AttrName "weight")
    = Raise NodeNotFound.
Proof. split_and!; by vm_compute. Qed.

Lemma multigraph_attribute_rejected_witness :
  has_node small_multigraph "S"%string ∧
  has_node small_multigraph "T"%string ∧
  is_multigraph small_multigraph = true ∧
  astar_path 20 small_multigraph "S" "T" None (AttrName "weight")
    = Raise NotImplementedError.
Proof.
  assert (has_node small_multigraph "S"%string) as Hs by solve_decide.
  assert (has_node small_multigraph "T"%string) as Ht by solve_decide.
  split_and!; [done..|].
  exact (proj1 (proj1 (multigraph_attribute_rejected 20 small_multigraph
    "S"%string "T"%string None Hs Ht eq_refl) "weight"%string)).
Defined.

Lemma astar_path_source_is_target_witness :
  has_node test_graph "S"%string ∧
  astar_path 1 test_graph "S" "S" None (AttrName "weight") = Ok ["S"%string].
Proof.
  assert (has_node test_graph "S"%string) as Hs by solve_decide.
  split; [done|].
  exact (proj1 (astar_path_source_is_target 0 test_graph "S"%string None
    (AttrName "weight") Hs) _ eq_refl).
Defined.

(** ** The explored table *)

Section explored_table.
Context {Node : Type} `{Countable Node}.
Implicit Types (G : Graph (Node:=Node)) (st : state (Node:=Node))
  (e : entry (Node:=Node)).

Lemma step_Running fuel0 G w h t st st' :
  step fuel0 G w h t st = Some (Ok (Running st')) →
  ∃ e rest, heappop (queue st) = Some (e, rest) ∧
            body fuel0 G w h t st e rest = Ok (Running st').
Proof.
  unfold step. destruct (heappop (queue st)) as [[e rest]|]; [|done].
  intros [= Hb]. by exists e, rest.
Qed.




End explored_table.



(** ** Sequence numbers and the order of the frontier *)

Section frontier_order.
Context {Node : Type} `{Countable Node}.
Implicit Types (G : Graph (Node:=Node)) (st : state (Node:=Node))
  (e a b c : entry (Node:=Node)) (q : list (entry (Node:=Node))).

Lemma entry_lt_asym a b : entry_lt a b → ¬ entry_lt b a.
Proof.
  intros [Hab|[Hab Hc]] [Hba|[Hba Hc']].
  - by destruct (Qclt_not_le _ _ Hab); apply Qclt_le_weak.
  - rewrite Hba in Hab. by apply (irreflexivity Qclt) in Hab.
  - rewrite Hab in Hba. by apply (irreflexivity Qclt) in Hba.
  - lia.
Qed.

Lemma entry_lt_cotrans a b c : entry_lt a c → entry_lt a b ∨ entry_lt b c.
Proof.
  unfold entry_lt. intros Hac.
  destruct (Qclt_le_dec (e_prio a) (e_prio b)) as [|Hba]; [by left; left|].
  destruct (Qclt_le_dec (e_prio b) (e_prio c)) as [|Hcb]; [by right; left|].
  destruct Hac as [Hac|[Hac Hn]].
  - destruct (Qclt_not_le _ _ Hac). by etrans.
  - assert (e_prio a = e_prio b) as Hab.
    { apply (anti_symm Qcle); [by rewrite Hac|done]. }
    assert (e_prio b = e_prio c) as Hbc by congruence.
    destruct (decide (e_count a < e_count b)%nat); [left; by right|].
    right. right. split; [done|lia].
Qed.

Lemma entry_lt_total a b :
  e_count a ≠ e_count b → entry_lt a b ∨ entry_lt b a.
Proof.
  unfold entry_lt. intros Hne.
  destruct (Qclt_le_dec (e_prio a) (e_prio b)) as [|Hba]; [by left; left|].
  destruct (Qclt_le_dec (e_prio b) (e_prio a)) as [|Hab]; [by right; left|].
  assert (e_prio a = e_prio b) as Heq by (by apply (anti_symm Qcle)).
  destruct (decide (e_count a < e_count b)%nat); [left; by right|].
  right. right. split; [done|lia].
Qed.

Lemma heappop_least q m r :
  heappop q = Some (m, r) → ∀ y, y ∈ r → ¬ entry_lt y m.
Proof.
  unfold heappop. revert m r.
  induction q as [|x l IH]; intros m r; simpl; [done|].
  destruct (pop_least entry_lt l) as [[m' r']|] eqn:Hl.
  - destruct (decide (entry_lt m' x)) as [Hlt|Hnlt]; intros [= <- <-] y.
    + intros [->|Hy]%elem_of_cons; [by apply entry_lt_asym|by eapply IH].
    + intros Hy. apply pop_least_perm in Hl as Hp. rewrite Hp in Hy.
      apply elem_of_cons in Hy as [->|Hy]; [done|].
      intros [?|?]%(entry_lt_cotrans _ m'); [|done]. by eapply IH.
  - intros [= <- <-] y Hy. by apply elem_of_nil in Hy.
Qed.

Lemma NoDup_fmap_elem_inj {A B} (f : A → B) (l : list A) x y :
  NoDup (f <$> l) → x ∈ l → y ∈ l → f x = f y → x = y.
Proof.
  induction l as [|z l IH]; simpl; [by intros _ ?%elem_of_nil|].
  intros [Hz Hl]%NoDup_cons [->|Hx]%elem_of_cons [->|Hy]%elem_of_cons Hf.
  - done.
  - destruct Hz. rewrite Hf. by apply list_elem_of_fmap_2.
  - destruct Hz. rewrite <-Hf. by apply list_elem_of_fmap_2.
  - by apply IH.
Qed.

(** With pairwise different sequence numbers the least item of the
    frontier does not depend on how the frontier is arranged. *)
Lemma heappop_arrangement q q' m r :
  q ≡ₚ q' → NoDup (e_count <$> q) → heappop q = Some (m, r) →
  ∃ r', heappop q' = Some (m, r') ∧ r ≡ₚ r'.
Proof.
  intros Hq Hnd Hpop.
  destruct (heappop q') as [[m' r']|] eqn:Hpop'.
  - apply heappop_perm in Hpop as Hp. apply heappop_perm in Hpop' as Hp'.
    assert (m = m') as <-.
    { assert (m ∈ q') as Hm by (rewrite <-Hq, Hp; by left).
      assert (m' ∈ q) as Hm' by (rewrite Hq, Hp'; by left).
      destruct (decide (e_count m = e_count m')) as [Hc|Hc].
      - apply (NoDup_fmap_elem_inj e_count q); [done| |done..].
        rewrite Hp. by left.
      - rewrite Hp' in Hm. rewrite Hp in Hm'.
        apply elem_of_cons in Hm as [?|Hm]; [done|].
        apply elem_of_cons in Hm' as [?|Hm']; [done|].
        destruct (entry_lt_total m m' Hc) as [Hlt|Hlt].
        + by destruct (heappop_least _ _ _ Hpop' _ Hm).
        + by destruct (heappop_least _ _ _ Hpop _ Hm'). }
    exists r'. split; [done|].
    apply (inj (cons m)). by rewrite <-Hp, <-Hp'.
  - apply heappop_None in Hpop'. rewrite Hpop' in Hq.
    apply Permutation_nil_r in Hq. by rewrite Hq in Hpop.
Qed.

Global Instance same_frontier_equiv : Equivalence (same_frontier (Node:=Node)).
Proof.
  split.
  - by intros st.
  - intros st1 st2 (?&?&?&?). by split_and!.
  - intros st1 st2 st3 (?&?&?&?) (?&?&?&?). split_and!; by etrans.
Qed.

Lemma relax_arrangement G w h t cur dist path st1 st2 nb :
  same_frontier st1 st2 →
  result_rel same_frontier (relax G w h t cur dist path st1 nb)
                           (relax G w h t cur dist path st2 nb).
Proof.
  intros (Hq & Henq & Hex & Hc). unfold relax.
  destruct (call (w G _ _)) as [x| |]; simpl; [|done..].
  rewrite <-Henq.
  destruct (enqueued st1 !! nb) as [[c h0]|].
  - destruct (decide (c ≤ dist + x)); simpl; [done|].
    split_and!; simpl; [|congruence..]. unfold heappush.
    by rewrite Hq, Hc.
  - destruct (call (h nb t)) as [hv| |]; simpl; [|done..].
    split_and!; simpl; [|congruence..]. unfold heappush.
    by rewrite Hq, Hc.
Qed.

Lemma expand_arrangement G w h t cur dist path nbrs st1 st2 :
  same_frontier st1 st2 →
  result_rel same_frontier (expand G w h t cur dist path st1 nbrs)
                           (expand G w h t cur dist path st2 nbrs).
Proof.
  revert st1 st2. induction nbrs as [|nb nbrs IH]; intros st1 st2 Hst;
    simpl; [done|].
  pose proof (relax_arrangement G w h t cur dist path st1 st2 nb Hst) as Hr.
  destruct (relax G w h t cur dist path st1 nb) as [st1'| |],
    (relax G w h t cur dist path st2 nb) as [st2'| |]; simpl in *; try done.
  by apply IH.
Qed.

Lemma body_arrangement fuel G w h t st1 st2 e rest1 rest2 :
  same_frontier st1 st2 → rest1 ≡ₚ rest2 →
  result_rel (progress_rel same_frontier)
    (body fuel G w h t st1 e rest1) (body fuel G w h t st2 e rest2).
Proof.
  intros (Hq & Henq & Hex & Hc) Hrest. unfold body.
  rewrite <-Henq, <-Hex, <-Hc.
  destruct (decide (e_node e = t)).
  { by destruct (reconstruct _ _ _ _). }
  assert (∀ ex,
    result_rel (progress_rel same_frontier)
      ((match adj G !! e_node e with
        | Some l => Ok l | None => Raise (Propagated "KeyError") end) ≫=
       λ nbrs, expand G w h t (e_node e) (e_dist e) (e_path e)
         {| queue := rest1; enqueued := enqueued st1; explored := ex;
            counter := counter st1 |} (nbrs.*1) ≫= λ st', Ok (Running st'))
      ((match adj G !! e_node e with
        | Some l => Ok l | None => Raise (Propagated "KeyError") end) ≫=
       λ nbrs, expand G w h t (e_node e) (e_dist e) (e_path e)
         {| queue := rest2; enqueued := enqueued st1; explored := ex;
            counter := counter st1 |} (nbrs.*1) ≫= λ st', Ok (Running st')))
    as Hexp.
  { intros ex. destruct (adj G !! e_node e) as [nbrs|]; simpl; [|done].
    pose proof (expand_arrangement G w h t (e_node e) (e_dist e) (e_path e)
      (nbrs.*1)
      {| queue := rest1; enqueued := enqueued st1; explored := ex;
         counter := counter st1 |}
      {| queue := rest2; enqueued := enqueued st1; explored := ex;
         counter := counter st1 |}) as Hx.
    destruct (expand _ _ _ _ _ _ _ _ _) as [s1| |],
      (expand _ _ _ _ _ _ _ _ _) as [s2| |]; simpl in *;
      try (by apply Hx); by destruct Hx. }
  destruct (explored st1 !! e_node e) as [[p|]|]; simpl.
  - destruct (enqueued st1 !! e_node e) as [[c h0]|]; simpl; [|done].
    case_bool_decide; [by split_and!|apply Hexp].
  - by split_and!.
  - apply Hexp.
Qed.

Lemma counters_fresh_arrangement st1 st2 :
  same_frontier st1 st2 → counters_fresh st1 → counters_fresh st2.
Proof.
  intros (Hq & _ & _ & Hc) [Hnd Hlt]. split.
  - by rewrite <-Hq.
  - intros e He. rewrite <-Hc. apply Hlt. by rewrite Hq.
Qed.

Lemma counters_fresh_pushed cur dist path st nb wv hv :
  counters_fresh st → counters_fresh (pushed cur dist path st nb wv hv).
Proof.
  intros [Hnd Hlt]. split; simpl; unfold heappush.
  - rewrite fmap_app. simpl. apply NoDup_app. split_and!; [done| |].
    + intros c (e & -> & He)%list_elem_of_fmap [= Hc]%list_elem_of_singleton.
      apply Hlt in He. lia.
    + apply NoDup_singleton.
  - intros e [He| ->%list_elem_of_singleton]%elem_of_app; simpl; [|lia].
    apply Hlt in He. lia.
Qed.

Lemma counters_fresh_rest st e rest ex :
  counters_fresh st → heappop (queue st) = Some (e, rest) →
  counters_fresh {| queue := rest; enqueued := enqueued st; explored := ex;
                    counter := counter st |}.
Proof.
  intros [Hnd Hlt] Hp%heappop_perm. rewrite Hp in Hnd.
  split; simpl.
  - by apply NoDup_cons in Hnd as [_ ?].
  - intros e' He'. apply Hlt. rewrite Hp. by right.
Qed.

Lemma counters_fresh_body fuel G w h t st e rest st' :
  counters_fresh st → heappop (queue st) = Some (e, rest) →
  body fuel G w h t st e rest = Ok (Running st') →
  counters_fresh st' ∧ (counter st ≤ counter st')%nat.
Proof.
  intros Hf Hpop [_ [[-> _]|(_ & nbrs & _ & Hex)]]%body_Running.
  - split; [by eapply counters_fresh_rest|done].
  - apply (expand_ind G w h t (e_node e) (e_dist e) (e_path e)
      (λ st0, counters_fresh st0 ∧ (counter st ≤ counter st0)%nat)
      _ _ _ Hex).
    + split; [by eapply counters_fresh_rest|done].
    + intros st0 nb wv hv _ [Hf0 Hle] _ _.
      split; [by apply counters_fresh_pushed|simpl; lia].
Qed.

Lemma counters_fresh_init (s : Node) : counters_fresh (init_state s).
Proof.
  split; simpl.
  - apply NoDup_singleton.
  - intros e ->%list_elem_of_singleton. simpl. lia.
Qed.

Lemma counters_fresh_rounds n fuel0 G w h t st st' :
  counters_fresh st → rounds n fuel0 G w h t st = Some st' →
  counters_fresh st' ∧ (counter st ≤ counter st')%nat.
Proof.
  revert st. induction n as [|n IH]; intros st Hf; simpl.
  { by intros [= <-]. }
  destruct (step fuel0 G w h t st) as [[[path|st1]| |]|] eqn:Hstep; try done.
  apply step_Running in Hstep as (e & rest & Hpop & Hb).
  destruct (counters_fresh_body _ _ _ _ _ _ _ _ _ Hf Hpop Hb) as [Hf1 Hle].
  intros Hr. destruct (IH _ Hf1 Hr). split; [done|lia].
Qed.

(** C5: the search is a function of its inputs also when the frontier is
    looked at as a bag: the sequence numbers of the items in the frontier
    stay pairwise different and below the counter, which only grows, so
    the least item is decided by priority and sequence number alone, and
    two states that differ only in the arrangement of the frontier lead to
    the same result. *)
Theorem search_independent_of_arrangement fuel0 fuel G w h t st1 st2 :
  counters_fresh st1 → same_frontier st1 st2 →
  search fuel0 fuel G w h t st1 = search fuel0 fuel G w h t st2 ∧
  ∀ n st', rounds n fuel0 G w h t st1 = Some st' →
           counters_fresh st' ∧ (counter st1 ≤ counter st')%nat.
Proof.
  intros Hf Hs. split; [|intros n st'; by apply counters_fresh_rounds].
  revert st1 st2 Hf Hs. induction fuel as [|fuel IH]; intros st1 st2 Hf Hs;
    simpl; unfold step.
  - destruct (heappop (queue st1)) as [[e rest]|] eqn:Hpop.
    + destruct (heappop_arrangement _ (queue st2) _ _ (proj1 Hs) (proj1 Hf)
        Hpop) as (rest' & -> & _). done.
    + apply heappop_None in Hpop. destruct Hs as [Hq _].
      rewrite Hpop in Hq. apply Permutation_nil_l in Hq. by rewrite <-Hq.
  - destruct (heappop (queue st1)) as [[e rest]|] eqn:Hpop.
    + destruct (heappop_arrangement _ (queue st2) _ _ (proj1 Hs) (proj1 Hf)
        Hpop) as (rest' & -> & Hrest).
      pose proof (body_arrangement fuel0 G w h t st1 st2 e rest rest' Hs Hrest)
        as Hb.
      destruct (body fuel0 G w h t st1 e rest) as [[p1|s1]| |] eqn:Hb1,
        (body fuel0 G w h t st2 e rest') as [[p2|s2]| |]; simpl in Hb;
        try done; try congruence.
      apply IH; [|done].
      by destruct (counters_fresh_body _ _ _ _ _ _ _ _ _ Hf Hpop Hb1).
    + apply heappop_None in Hpop. destruct Hs as [Hq _].
      rewrite Hpop in Hq. apply Permutation_nil_l in Hq. by rewrite <-Hq.
Qed.

End frontier_order.

Lemma search_independent_of_arrangement_witness :
  counters_fresh tied_frontier ∧
  same_frontier tied_frontier tied_frontier_swapped ∧
  search 20 20 test_graph (attr_weight "weight") _default_heuristic
         "T"%string tied_frontier
  = search 20 20 test_graph (attr_weight "weight") _default_heuristic
           "T"%string tied_frontier_swapped.
Proof.
  assert (counters_fresh tied_frontier) as Hf.
  { split; simpl.
    - apply NoDup_cons. split; [|apply NoDup_singleton].
      by intros [=]%list_elem_of_singleton.
    - intros e [->|[->|[]%elem_of_nil]%elem_of_cons]%elem_of_cons; simpl; lia. }
  assert (same_frontier tied_frontier tied_frontier_swapped) as Hs.
  { split_and!; [apply perm_swap|done..]. }
  split_and!; [done..|].
  exact (proj1 (search_independent_of_arrangement 20 20 test_graph
    (attr_weight "weight") _default_heuristic "T"%string _ _ Hf Hs)).
Defined.

(** ** The search without the paths *)

Section classic.
Context {Node : Type} `{Countable Node}.
Implicit Types (G : Graph (Node:=Node)) (st : state (Node:=Node))
  (e : entry (Node:=Node)) (q : list (entry (Node:=Node))).







End classic.


(** ** Divergence on a cycle of negative cost *)

Section divergence.
Context {Node : Type} `{Countable Node}.
Implicit Types (G : Graph (Node:=Node)) (st : state (Node:=Node))
  (x y : entry (Node:=Node)) (pre : list (entry (Node:=Node))).








End divergence.



(** ** The structure of the state is kept *)

Section structure.
Context {Node : Type} `{Countable Node}.
Implicit Types (G : Graph (Node:=Node)) (st : state (Node:=Node))
  (e : entry (Node:=Node)) (rest : list (entry (Node:=Node)))
  (s t v p cur nb : Node).

Lemma heappop_init s e rest :
  heappop (queue (init_state s)) = Some (e, rest) →
  e = Entry 0 0 s 0 None [s] ∧ rest = [].
Proof. unfold heappop. simpl. by intros [= <- <-]. Qed.

Lemma heappop_in st e rest :
  heappop (queue st) = Some (e, rest) → ∀ e', e' ∈ rest → e' ∈ queue st.
Proof. intros Hp e' He'. apply (heappop_elem _ _ _ _ Hp). by right. Qed.

Lemma heappop_head st e rest :
  heappop (queue st) = Some (e, rest) → e ∈ queue st.
Proof. intros Hp. apply (heappop_elem _ _ _ _ Hp). by left. Qed.

Lemma insert_is_Some_mono {A} (m : gmap Node A) i x k :
  is_Some (m !! k) → is_Some (<[i := x]> m !! k).
Proof.
  intros Hk. apply lookup_insert_is_Some.
  destruct (decide (i = k)); [by left|by right].
Qed.

Lemma structure_init G s : structure_inv G s (init_state s).
Proof.
  split; simpl.
  - apply counters_fresh_init.
  - done.
  - by intros e p ->%list_elem_of_singleton.
  - intros v p. by rewrite lookup_empty.
  - intros v. by rewrite lookup_empty.
  - intros e ->%list_elem_of_singleton. simpl. apply rtc_refl.
  - by intros e ->%list_elem_of_singleton.
  - by intros e1 e2 ->%list_elem_of_singleton ->%list_elem_of_singleton.
  - intros v. rewrite lookup_empty. by intros [? ?].
  - by left.
Qed.

Lemma stale_not_init s e : ¬ stale (init_state s) e.
Proof.
  intros [Hs|(p & Hs & _)]; simpl in Hs; by rewrite lookup_empty in Hs.
Qed.

Lemma structure_skipped G s st e rest :
  structure_inv G s st → heappop (queue st) = Some (e, rest) → stale st e →
  structure_inv G s (skipped st rest).
Proof.
  intros Hinv Hpop Hstale.
  assert (st ≠ init_state s) as Hne.
  { intros ->. by eapply stale_not_init. }
  pose proof (heappop_in _ _ _ Hpop) as Hin.
  destruct Hinv as [Ifresh Iinit Iparent Ilink Iroot Ireach Ienq Idist Inode Isrc].
  split; simpl; eauto.
  - by eapply counters_fresh_rest.
  - intros e' He' Hp. destruct Hne. eauto.
  - right. by destruct Isrc.
Qed.

Lemma rest_has_parents G s st e rest :
  structure_inv G s st → heappop (queue st) = Some (e, rest) →
  ∀ e', e' ∈ rest → e_parent e' ≠ None.
Proof.
  intros Hinv Hpop e' He' Hp.
  pose proof (si_initial _ _ _ Hinv e' (heappop_in _ _ _ Hpop _ He') Hp) as ->.
  apply heappop_init in Hpop as [_ ->]. by apply elem_of_nil in He'.
Qed.

Lemma root_is_source G s st e rest :
  structure_inv G s st → heappop (queue st) = Some (e, rest) →
  e_parent e = None → st = init_state s ∧ e = Entry 0 0 s 0 None [s].
Proof.
  intros Hinv Hpop Hp.
  pose proof (si_initial _ _ _ Hinv e (heappop_head _ _ _ Hpop) Hp) as ->.
  split; [done|]. by apply heappop_init in Hpop as [-> _].
Qed.

Lemma structure_finalized G s st e rest :
  structure_inv G s st → heappop (queue st) = Some (e, rest) →
  admissible st e → has_node G (e_node e) →
  structure_inv G s (finalized st e rest).
Proof.
  intros Hinv Hpop Hadm Hnode.
  pose proof (heappop_in _ _ _ Hpop) as Hin.
  pose proof (heappop_head _ _ _ Hpop) as Hhd.
  pose proof (rest_has_parents _ _ _ _ _ Hinv Hpop) as Hpar.
  pose proof (root_is_source _ _ _ _ _ Hinv Hpop) as Hroot.
  destruct Hinv as [Ifresh Iinit Iparent Ilink Iroot Ireach Ienq Idist Inode Isrc].
  split; simpl.
  - by eapply counters_fresh_rest.
  - intros e' He' Hp. by destruct (Hpar e' He').
  - intros e' p He' Hp. destruct (Iparent e' p (Hin _ He') Hp).
    split; [done|]. by apply insert_is_Some_mono.
  - intros v p Hv. destruct (decide (e_node e = v)) as [<-|Hne].
    + rewrite lookup_insert_eq in Hv. injection Hv as Hv.
      destruct (Iparent e p Hhd Hv). split; [done|].
      by apply insert_is_Some_mono.
    + rewrite lookup_insert_ne in Hv by done.
      destruct (Ilink v p Hv). split; [done|].
      by apply insert_is_Some_mono.
  - intros v Hv. destruct (decide (e_node e = v)) as [<-|Hne].
    + rewrite lookup_insert_eq in Hv. injection Hv as Hv.
      by destruct (Hroot Hv) as [_ ->].
    + rewrite lookup_insert_ne in Hv by done. eauto.
  - eauto.
  - intros e' He' Hp. apply (Ienq e' (Hin _ He') Hp).
  - eauto.
  - intros v [Hv|[_ Hv]]%lookup_insert_is_Some; [by subst|eauto].
  - right. destruct (e_parent e) as [p|] eqn:Hp.
    + destruct Isrc as [->|Hs].
      { apply heappop_init in Hpop as [-> _]. done. }
      rewrite lookup_insert_ne; [done|]. intros Hes.
      destruct Hadm as [Hadm|(p' & c & hv & Hadm & _)];
        rewrite Hes, Hs in Hadm; done.
    + destruct (Hroot eq_refl) as [_ ->]. simpl.
      by rewrite lookup_insert_eq.
Qed.

Lemma structure_pushed G s (h : HeuristicFunction) t st cur dist path nb wv hv :
  structure_inv G s st → (∀ e, e ∈ queue st → e_parent e ≠ None) →
  is_Some (explored st !! cur) → reachable G s cur → edge G cur nb →
  improves h t st nb (dist + wv) hv →
  structure_inv G s (pushed cur dist path st nb wv hv) ∧
  ∀ e, e ∈ queue (pushed cur dist path st nb wv hv) → e_parent e ≠ None.
Proof.
  intros Hinv Hpar Hcur Hreach Hedge Himp.
  assert (∀ e, e ∈ queue st → e_node e = nb → dist + wv < e_dist e) as Hbeat.
  { intros e He Hn.
    destruct (si_enq _ _ _ Hinv e He (Hpar e He)) as (c & h0 & Hc & Hle).
    destruct Himp as [[Hnone _]|(c' & Hc' & Hlt)]; [congruence|].
    rewrite Hn in Hc. assert (c' = c) as -> by congruence.
    by eapply Qclt_le_trans. }
  split.
  2: { simpl. unfold heappush.
       intros e [He| ->%list_elem_of_singleton]%elem_of_app; [eauto|done]. }
  destruct Hinv as [Ifresh Iinit Iparent Ilink Iroot Ireach Ienq Idist Inode Isrc].
  split; simpl; unfold heappush.
  - by apply (counters_fresh_pushed cur dist path st nb wv hv).
  - intros e [He| ->%list_elem_of_singleton]%elem_of_app Hp; [|done].
    by destruct (Hpar e He).
  - intros e p [He| ->%list_elem_of_singleton]%elem_of_app Hp; [eauto|].
    simpl in *. by injection Hp as <-.
  - done.
  - done.
  - intros e [He| ->%list_elem_of_singleton]%elem_of_app; [eauto|].
    simpl. by eapply rtc_r.
  - unfold enq_le. simpl.
    intros e [He| ->%list_elem_of_singleton]%elem_of_app Hp.
    + destruct (decide (e_node e = nb)) as [Hn|Hn].
      * exists (dist + wv), hv. rewrite Hn, lookup_insert_eq.
        split; [done|]. apply Qclt_le_weak. by apply Hbeat.
      * destruct (Ienq e He Hp) as (c & h0 & Hc & Hle).
        exists c, h0. by rewrite lookup_insert_ne.
    + simpl. exists (dist + wv), hv. by rewrite lookup_insert_eq.
  - intros e1 e2 [He1| ->%list_elem_of_singleton]%elem_of_app
      [He2| ->%list_elem_of_singleton]%elem_of_app; simpl; [eauto| | |done].
    + intros Hn Hd. pose proof (Hbeat e1 He1 Hn) as Hlt.
      rewrite Hd in Hlt. by apply (irreflexivity Qclt) in Hlt.
    + intros Hn Hd. pose proof (Hbeat e2 He2 (eq_sym Hn)) as Hlt.
      rewrite <-Hd in Hlt. by apply (irreflexivity Qclt) in Hlt.
  - done.
  - right. destruct Isrc as [->|]; [|done].
    simpl in Hcur. rewrite lookup_empty in Hcur. by destruct Hcur.
Qed.

End structure.

Section structure_round.
Context {Node : Type} `{Countable Node}.
Implicit Types (G : Graph (Node:=Node)) (st : state (Node:=Node))
  (e : entry (Node:=Node)) (rest : list (entry (Node:=Node)))
  (s t v p cur nb : Node).

Lemma adj_edge G cur nbrs nb :
  adj G !! cur = Some nbrs → nb ∈ nbrs.*1 ↔ edge G cur nb.
Proof.
  intros Hadj. split.
  - intros Hnb. by exists nbrs.
  - intros (nbrs' & Hadj' & Hnb). congruence.
Qed.

Lemma structure_body fuel G s w h t st e rest st' :
  structure_inv G s st → heappop (queue st) = Some (e, rest) →
  body fuel G w h t st e rest = Ok (Running st') →
  structure_inv G s st'.
Proof.
  intros Hinv Hpop [_ [[-> Hst]|(Hadm & nbrs & Hadj & Hex)]]%body_Running.
  { by eapply structure_skipped. }
  assert (has_node G (e_node e)) as Hnode by (by eexists).
  pose proof (structure_finalized G s st e rest Hinv Hpop Hadm Hnode) as Hfin.
  refine (proj1 (expand_ind G w h t (e_node e) (e_dist e) (e_path e)
    (λ st0, structure_inv G s st0 ∧
            (∀ e', e' ∈ queue st0 → e_parent e' ≠ None) ∧
            is_Some (explored st0 !! e_node e)) _ _ _ Hex _ _)).
  - split_and!; [done| |].
    + exact (rest_has_parents G s st e rest Hinv Hpop).
    + simpl. rewrite lookup_insert_eq. by eexists.
  - intros st0 nb wv hv Hnb (Hinv0 & Hpar0 & Hcur0) Hw Himp.
    destruct (structure_pushed G s h t st0 (e_node e) (e_dist e) (e_path e)
                nb wv hv Hinv0 Hpar0 Hcur0) as [? ?]; [| |done|by split_and!].
    + apply (si_reach _ _ _ Hinv). by eapply heappop_head.
    + by apply (adj_edge G _ nbrs).
Qed.




End structure_round.

(** ** Costs that are not negative: simple paths and a bound on the rounds *)

Section nonnegative.
Context {Node : Type} `{Countable Node}.
Implicit Types (G : Graph (Node:=Node)) (st : state (Node:=Node))
  (e : entry (Node:=Node)) (rest : list (entry (Node:=Node)))
  (s t v p cur nb u : Node) (l path : list Node).






(** *** The measure *)








End nonnegative.

(** ** Costs that are not negative: the parent links lead to the source *)

Section parents.
Context {Node : Type} `{Countable Node}.
Implicit Types (G : Graph (Node:=Node)) (st : state (Node:=Node))
  (e : entry (Node:=Node)) (rest : list (entry (Node:=Node)))
  (s t v p cur nb u : Node) (l path : list Node) (gh : ghost (Node:=Node)).












(** *** Following the parent links *)





Lemma linked_snoc G l x y :
  linked G l → last l = Some x → edge G x y → linked G (l ++ [y]).
Proof.
  induction l as [|a [|b l] IH]; [done| |].
  - simpl. by intros _ [= ->] ?.
  - intros [Hab Hl] Hlast Hxy. split; [done|]. by apply IH.
Qed.

Lemma chain_path G s st v l :
  structure_inv G s st → chain (explored st) v l →
  linked G (rev l) ∧ head (rev l) = Some s ∧ last (rev l) = Some v.
Proof.
  intros Hinv. induction 1 as [v Hv|v p l Hv Hl (IH1 & IH2 & IH3)]; simpl.
  - by rewrite (si_root _ _ _ Hinv v Hv).
  - destruct (si_link _ _ _ Hinv v p Hv) as [Hedge _]. split_and!.
    + by eapply linked_snoc.
    + destruct (rev l); [done|]. done.
    + apply last_snoc.
Qed.



End parents.

(** ** Total correctness for costs that are not negative *)

Section totality.
Context {Node : Type} `{Countable Node}.
Implicit Types (G : Graph (Node:=Node)) (st : state (Node:=Node))
  (e : entry (Node:=Node)) (rest : list (entry (Node:=Node)))
  (s t v p cur nb u : Node) (l path : list Node).







(** *** More fuel does not change a result *)






End totality.

(** ** Checks on concrete graphs *)

Section checks.
Context {Node : Type} `{Countable Node}.
Implicit Types (G : Graph (Node:=Node)) (s t u v : Node).




End checks.












(** * Further properties of the search *)

(** ** What a result of the loop says about the state it came from *)

Section outcomes.
Context {Node : Type} `{Countable Node}.
Implicit Types (G : Graph (Node:=Node)) (st : state (Node:=Node))
  (e : entry (Node:=Node)) (rest : list (entry (Node:=Node)))
  (s t v p cur nb u : Node) (l path : list Node).

Lemma body_Found fuel G w h t st e rest path :
  body fuel G w h t st e rest = Ok (Found path) →
  e_node e = t ∧ reconstruct fuel (explored st) (e_parent e) [t] = Ok path.
Proof.
  unfold body. destruct (decide (e_node e = t)) as [Ht|Ht].
  - rewrite Ht. destruct (reconstruct _ _ _ _) as [p| |]; simpl; [|done..].
    by intros [= ->].
  - destruct (explored st !! e_node e) as [[p|]|]; simpl.
    + destruct (enqueued st !! e_node e) as [[c h0]|]; simpl; [|done].
      case_bool_decide; [done|].
      destruct (adj G !! e_node e); simpl; [|done].
      by destruct (expand _ _ _ _ _ _ _ _ _).
    + done.
    + destruct (adj G !! e_node e); simpl; [|done].
      by destruct (expand _ _ _ _ _ _ _ _ _).
Qed.

(** A property that every round keeps holds in the state in which the
    target is popped. *)
Lemma search_Ok_inv (P : state → Prop) fuel0 fuel G w h t st path :
  (∀ st0 e rest st1, P st0 → heappop (queue st0) = Some (e, rest) →
     body fuel0 G w h t st0 e rest = Ok (Running st1) → P st1) →
  P st → search fuel0 fuel G w h t st = Ok path →
  ∃ st' e rest, P st' ∧ heappop (queue st') = Some (e, rest) ∧
    e_node e = t ∧
    reconstruct fuel0 (explored st') (e_parent e) [t] = Ok path.
Proof.
  intros Hkeep. revert st. induction fuel as [|fuel IH]; intros st HP; simpl;
    unfold step; destruct (heappop (queue st)) as [[e rest]|] eqn:Hpop;
    try done.
  destruct (body fuel0 G w h t st e rest) as [[p|st1]| |] eqn:Hb; try done.
  - intros [= ->]. apply body_Found in Hb as [Ht Hrec].
    by exists st, e, rest.
  - apply IH. by eapply Hkeep.
Qed.


(** ... and in the state after any number of rounds. *)
Lemma rounds_inv (P : state → Prop) n fuel0 G w h t st st' :
  (∀ st0 e rest st1, P st0 → heappop (queue st0) = Some (e, rest) →
     body fuel0 G w h t st0 e rest = Ok (Running st1) → P st1) →
  P st → rounds n fuel0 G w h t st = Some st' → P st'.
Proof.
  intros Hkeep. revert st. induction n as [|n IH]; intros st HP; simpl.
  { by intros [= <-]. }
  destruct (step fuel0 G w h t st) as [[[p|st1]| |]|] eqn:Hstep; try done.
  apply step_Running in Hstep as (e & rest & Hpop & Hb).
  apply IH. by eapply Hkeep.
Qed.

Lemma reconstruct_Ok_chain fuel (ex : gmap Node (option Node)) v acc path :
  reconstruct fuel ex (Some v) acc = Ok path →
  ∃ l, chain ex v l ∧ path = rev (acc ++ l).
Proof.
  revert v acc. induction fuel as [|fuel IH]; intros v acc; simpl; [done|].
  destruct (ex !! v) as [[p|]|] eqn:Hv; [| |done].
  - intros (l & Hl & ->)%IH. exists (v :: l). split; [by eapply chain_step|].
    by rewrite <-app_assoc.
  - destruct fuel; simpl; intros [= <-]; exists [v];
      (split; [by apply chain_root|done]).
Qed.

(** The walk along the parent links gives a path from the source to the
    target whenever it ends. *)
Lemma found_is_path fuel G s t st e rest path :
  structure_inv G s st → heappop (queue st) = Some (e, rest) →
  e_node e = t →
  reconstruct fuel (explored st) (e_parent e) [t] = Ok path →
  is_path G s t path.
Proof.
  intros Hinv Hpop Hn Hrec.
  pose proof (heappop_head _ _ _ Hpop) as Hhd.
  destruct (e_parent e) as [p|] eqn:Hp.
  - destruct (si_parent _ _ _ Hinv e p Hhd Hp) as [Hedge _].
    apply reconstruct_Ok_chain in Hrec as (l & Hl & ->). simpl.
    destruct (chain_path G s st p l Hinv Hl) as (H1 & H2 & H3).
    rewrite Hn in Hedge. split_and!.
    + destruct (rev l); done.
    + apply last_snoc.
    + by eapply linked_snoc.
  - destruct (root_is_source _ _ _ _ _ Hinv Hpop Hp) as [_ ->].
    simpl in Hn. subst t. destruct fuel; simpl in Hrec;
      injection Hrec as <-; by split_and!.
Qed.

Lemma astar_path_Ok_search fuel G s t h ws path :
  astar_path fuel G s t h ws = Ok path →
  has_node G s ∧ has_node G t ∧
  ∃ w, _weight_function G ws = Ok w ∧
       search fuel fuel G w (default _default_heuristic h) t (init_state s)
         = Ok path.
Proof.
  intros Hp. destruct (astar_path_Ok_nodes _ _ _ _ _ _ _ Hp) as [Hs Ht].
  split_and!; [done..|]. rewrite astar_path_nodes in Hp by done.
  destruct (_weight_function G ws) as [w| |]; [|done..]. by exists w.
Qed.

(** X1: whatever the costs and the heuristic are, a result of
    [astar_path] is a sequence of nodes that starts at the source, ends at
    the target and follows edges of the graph. *)
Theorem astar_path_returns_path fuel G s t h ws path :
  astar_path fuel G s t h ws = Ok path → is_path G s t path.
Proof.
  intros (_ & _ & w & _ & Hsearch)%astar_path_Ok_search.
  destruct (search_Ok_inv (structure_inv G s) _ _ _ _ _ _ _ _
              (λ st0 e rest st1 Hi Hpop Hb,
                 structure_body _ G s w _ t st0 e rest st1 Hi Hpop Hb)
              (structure_init G s) Hsearch)
    as (st' & e & rest & Hinv & Hpop & Hn & Hrec).
  by eapply found_is_path.
Qed.


(** X3: a failure of [astar_path] is the failure of [astar_path_length]. *)
Theorem astar_path_length_fails_alike fuel G s t h ws err :
  astar_path fuel G s t h ws = Raise err →
  astar_path_length fuel G s t h ws = Raise err.
Proof.
  unfold astar_path_length.
  destruct (decide (¬ has_node G s ∨ ¬ has_node G t)) as [Hm|Hn].
  { rewrite astar_path_missing by done. by intros [= <-]. }
  assert (has_node G s ∧ has_node G t) as [Hs Ht]
    by (split; apply dec_stable; tauto).
  rewrite astar_path_nodes by done.
  destruct (_weight_function G ws) as [w| |] eqn:Hw; simpl;
    [|by intros [= <-]|by intros [=]].
  rewrite astar_path_nodes by done. simpl. by intros ->.
Qed.

(** X4: from a node to itself the length is 0, for every heuristic and
    every cost function that the weight specification resolves to. *)
Theorem astar_path_length_source_is_target fuel G s h ws w :
  has_node G s → _weight_function G ws = Ok w →
  astar_path_length (S fuel) G s s h ws = Ok 0.
Proof.
  intros Hs Hw. unfold astar_path_length.
  destruct (decide (¬ has_node G s ∨ ¬ has_node G s)) as [[?|?]|_];
    [done..|].
  rewrite Hw. simpl. rewrite astar_path_nodes by done. simpl.
  unfold step, body. simpl. by rewrite decide_True.
Qed.

End outcomes.

(** ** Attribute weights, the enqueued table and the accumulated cost *)

Section tables.
Context {Node : Type} `{Countable Node}.
Implicit Types (G : Graph (Node:=Node)) (st : state (Node:=Node))
  (e : entry (Node:=Node)) (rest : list (entry (Node:=Node)))
  (s t v p cur nb u : Node) (l path : list Node).

Lemma list_find_key (nbrs : list (Node * gmap string Qc)) nd :
  NoDup (nbrs.*1) → nd ∈ nbrs →
  ∃ i, list_find (λ q, q.1 = nd.1) nbrs = Some (i, nd).
Proof.
  induction nbrs as [|x nbrs IH]; simpl; [by intros _ ?%elem_of_nil|].
  intros [Hx Hnd]%NoDup_cons [->|Hin]%elem_of_cons.
  - exists O. by rewrite decide_True.
  - rewrite decide_False.
    + destruct (IH Hnd Hin) as [i ->]. by exists (S i).
    + intros Heq. apply Hx. rewrite Heq. by apply list_elem_of_fmap_2.
Qed.

Lemma get_edge_data_neighbour G u nbrs nd :
  adj G !! u = Some nbrs → NoDup (nbrs.*1) → nd ∈ nbrs →
  get_edge_data G u nd.1 = Some nd.2.
Proof.
  intros Hadj Hnd Hin. unfold get_edge_data. rewrite Hadj. simpl.
  by destruct (list_find_key nbrs nd Hnd Hin) as [i ->].
Qed.

Lemma relax_attr_missing G a t cur dist path st nb d :
  get_edge_data G cur nb = Some d → d !! a = None →
  relax G (attr_weight a) _default_heuristic t cur dist path st nb
  = Raise (Propagated "KeyError").
Proof.
  intros Hd Ha. unfold relax, attr_weight. cbn [fst snd].
  by rewrite Hd, Ha.
Qed.

Lemma relax_attr_present G a t cur dist path st nb d c :
  get_edge_data G cur nb = Some d → d !! a = Some c →
  ∃ st1, relax G (attr_weight a) _default_heuristic t cur dist path st nb
         = Ok st1.
Proof.
  intros Hd Ha. unfold relax, attr_weight. cbn [fst snd].
  rewrite Hd, Ha. simpl.
  destruct (enqueued st !! nb) as [[qc h0]|]; simpl; [|by eexists].
  destruct (decide (qc ≤ dist + c)); simpl; by eexists.
Qed.

Lemma expand_missing_attribute G a t cur dist path st
    (lst : list (Node * gmap string Qc)) :
  (∀ nd, nd ∈ lst → get_edge_data G cur nd.1 = Some nd.2) →
  (∃ nd, nd ∈ lst ∧ nd.2 !! a = None) →
  expand G (attr_weight a) _default_heuristic t cur dist path st (lst.*1)
  = Raise (Propagated "KeyError").
Proof.
  revert st. induction lst as [|x lst IH]; intros st Hdata (nd & Hin & Hnone).
  { by apply elem_of_nil in Hin. }
  rewrite fmap_cons. cbn [expand].
  destruct (x.2 !! a) as [c|] eqn:Hx.
  - destruct (relax_attr_present G a t cur dist path st x.1 x.2 c) as [st1 ->];
      [apply Hdata; by left|done|].
    simpl. apply IH.
    + intros ??. apply Hdata. by right.
    + apply elem_of_cons in Hin as [->|Hin]; [congruence|by exists nd].
  - rewrite (relax_attr_missing G a t cur dist path st x.1 x.2);
      [done|apply Hdata; by left|done].
Qed.

(** X5: an edge without the weight attribute is not taken to have weight
    one: when a neighbour of the source is joined to it by such an edge,
    [astar_path] with an attribute name and the default heuristic lets the
    [KeyError] of the lookup through. *)
Theorem missing_attribute_raises fuel G s t a nbrs :
  is_multigraph G = false → has_node G t → s ≠ t →
  adj G !! s = Some nbrs → NoDup (nbrs.*1) →
  (∃ nd, nd ∈ nbrs ∧ nd.2 !! a = None) →
  astar_path (S fuel) G s t None (AttrName a) = Raise (Propagated "KeyError").
Proof.
  intros Hm Ht Hst Hadj Hnd Hmiss.
  rewrite astar_path_nodes by (done || by eexists). simpl. rewrite Hm. simpl.
  unfold step, body. simpl. rewrite decide_False by done.
  rewrite lookup_empty, Hadj. simpl.
  rewrite expand_missing_attribute; [done| |done].
  intros nd Hin. by eapply get_edge_data_neighbour.
Qed.

(** The best known cost of a node goes down and its heuristic value
    stays, round after round. *)
Lemma enqueued_body fuel G w h t st e rest st' v c hv :
  body fuel G w h t st e rest = Ok (Running st') →
  enqueued st !! v = Some (c, hv) →
  ∃ c', enqueued st' !! v = Some (c', hv) ∧ c' ≤ c.
Proof.
  intros [_ [[-> _]|(_ & nbrs & _ & Hex)]]%body_Running Hv.
  { by exists c. }
  apply (expand_ind G w h t (e_node e) (e_dist e) (e_path e)
    (λ st0, ∃ c', enqueued st0 !! v = Some (c', hv) ∧ c' ≤ c) _ _ _ Hex).
  - by exists c.
  - intros st0 nb wv hv' _ (c0 & Hc0 & Hle) _ Himp. simpl.
    destruct (decide (nb = v)) as [->|Hne];
      [|rewrite lookup_insert_ne by done; by exists c0].
    rewrite lookup_insert_eq.
    destruct Himp as [[Hnone _]|(c1 & Hc1 & Hlt)]; [congruence|].
    assert (c1 = c0 ∧ hv' = hv) as [-> ->] by (split; congruence).
    eexists. split; [done|]. etrans; [by apply Qclt_le_weak|done].
Qed.

(** X6: in any run of the loop the cost recorded for a node in the
    enqueued table never goes up, and the heuristic value recorded with it
    is the one computed when the node was met first. *)
Theorem enqueued_table_rounds n fuel0 G w h t st st' v c hv :
  rounds n fuel0 G w h t st = Some st' →
  enqueued st !! v = Some (c, hv) →
  ∃ c', enqueued st' !! v = Some (c', hv) ∧ c' ≤ c.
Proof.
  intros Hr Hv.
  refine (rounds_inv
    (λ st0, ∃ c', enqueued st0 !! v = Some (c', hv) ∧ c' ≤ c)
    n fuel0 G w h t st st' _ _ Hr).
  - intros st0 e rest st1 (c0 & Hc0 & Hle) Hpop Hb.
    destruct (enqueued_body _ _ _ _ _ _ _ _ _ _ _ _ Hb Hc0) as (c1 & ? & ?).
    exists c1. split; [done|]. by etrans.
  - by exists c.
Qed.

(** *** The accumulated cost *)

Lemma prev_edge_of_snoc2 l a b c :
  prev_edge_of (l ++ [a; b]) c = Some (a, c).
Proof.
  unfold prev_edge_of. by rewrite List.rev_app_distr.
Qed.

Lemma path_cost_from_snoc G w front prev u more acc d cur nb x :
  prev = prev_edge_of (front ++ [u]) u →
  path_cost_from G w prev u more acc = Ok d →
  last (u :: more) = Some cur →
  w G (prev_edge_of (front ++ u :: more) cur) (cur, nb) = Value x →
  path_cost_from G w prev u (more ++ [nb]) acc = Ok (d + x).
Proof.
  revert front prev u acc. induction more as [|v more IH];
    intros front prev u acc Hprev; simpl.
  - intros [= <-] [= <-] Hw. by rewrite Hprev, Hw.
  - destruct (call (w G prev (u, v))) as [y| |]; simpl; [|done..].
    intros Hd Hlast Hw.
    apply (IH (front ++ [u]) (Some (u, v)) v (acc + y)); try done.
    + rewrite <-app_assoc. cbn [app]. by rewrite prev_edge_of_snoc2.
    + by rewrite <-app_assoc.
Qed.

Lemma path_cost_snoc G w path d cur nb x :
  path_cost G w path = Ok d → last path = Some cur →
  w G (prev_edge_of path cur) (cur, nb) = Value x →
  path_cost G w (path ++ [nb]) = Ok (d + x).
Proof.
  destruct path as [|u rest]; [done|]. simpl. intros Hd Hlast Hw.
  by apply (path_cost_from_snoc G w [] None u rest 0 d cur nb x).
Qed.

Lemma is_path_snoc G s cur nb path :
  is_path G s cur path → edge G cur nb → is_path G s nb (path ++ [nb]).
Proof.
  intros (Hhd & Hlast & Hl) Hedge. split_and!.
  - by destruct path.
  - apply last_snoc.
  - by eapply linked_snoc.
Qed.

Lemma walks_body fuel G s w h t st e rest st' :
  (∀ e', e' ∈ queue st →
     is_path G s (e_node e') (e_path e') ∧
     path_cost G w (e_path e') = Ok (e_dist e')) →
  heappop (queue st) = Some (e, rest) →
  body fuel G w h t st e rest = Ok (Running st') →
  ∀ e', e' ∈ queue st' →
    is_path G s (e_node e') (e_path e') ∧
    path_cost G w (e_path e') = Ok (e_dist e').
Proof.
  intros Hinv Hpop [_ [[-> _]|(_ & nbrs & Hadj & Hex)]]%body_Running.
  { intros e' He'. apply Hinv. by eapply heappop_in. }
  destruct (Hinv e (heappop_head _ _ _ Hpop)) as [Hpath Hcost].
  apply (expand_ind G w h t (e_node e) (e_dist e) (e_path e)
    (λ st0, ∀ e', e' ∈ queue st0 →
       is_path G s (e_node e') (e_path e') ∧
       path_cost G w (e_path e') = Ok (e_dist e')) _ _ _ Hex).
  - intros e' He'. apply Hinv. by eapply heappop_in.
  - intros st0 nb wv hv Hnb Hst0 Hw _ e'. simpl. unfold heappush.
    intros [He'| ->%list_elem_of_singleton]%elem_of_app; [by apply Hst0|].
    simpl. split.
    + apply is_path_snoc with (e_node e); [done|].
      by apply (adj_edge G _ nbrs).
    + apply path_cost_snoc with (e_node e); [done| |done].
      by destruct Hpath as (_ & ? & _).
Qed.

(** X7: in every state of a run, the explored path of a frontier item is
    a walk in the graph from the source to the node of the item, and the
    cost to reach that the item carries is the cost of this walk: the sum
    of the cost function over its edges, each with the edge before it. *)
Theorem frontier_costs_rounds n fuel0 G w h t s st e :
  rounds n fuel0 G w h t (init_state s) = Some st → e ∈ queue st →
  is_path G s (e_node e) (e_path e) ∧
  path_cost G w (e_path e) = Ok (e_dist e).
Proof.
  intros Hr. revert e.
  refine (rounds_inv (λ st0, ∀ e', e' ∈ queue st0 →
            is_path G s (e_node e') (e_path e') ∧
            path_cost G w (e_path e') = Ok (e_dist e'))
            n fuel0 G w h t (init_state s) st (walks_body fuel0 G s w h t)
            _ Hr).
  intros e ->%list_elem_of_singleton. simpl. by split_and!.
Qed.

End tables.

(** ** Costs that are not negative: the result is a simple path and its
    length is not negative *)

Section simple_result.
Context {Node : Type} `{Countable Node}.
Implicit Types (G : Graph (Node:=Node)) (st : state (Node:=Node))
  (e : entry (Node:=Node)) (rest : list (entry (Node:=Node)))
  (s t v p cur nb u : Node) (l path : list Node) (gh : ghost (Node:=Node)).








Lemma linked_snoc_inv G l y :
  l ≠ [] → linked G (l ++ [y]) →
  linked G l ∧ ∃ x, last l = Some x ∧ edge G x y.
Proof.
  induction l as [|a [|b l] IH]; [done| |]; intros _.
  - simpl. intros [Hedge _]. split; [done|]. by exists a.
  - intros [Hab Hl]. destruct (IH ltac:(done) Hl) as (Hl' & x & Hx & Hxy).
    split; [by split|]. by exists x.
Qed.

Lemma is_path_snoc_inv G s x l y :
  l ≠ [] → is_path G s x (l ++ [y]) →
  x = y ∧ ∃ z, is_path G s z l ∧ edge G z y.
Proof.
  intros Hne (Hhd & Hlast & Hl). rewrite last_snoc in Hlast.
  split; [congruence|].
  destruct (linked_snoc_inv G l y Hne Hl) as (Hl' & z & Hz & Hzy).
  exists z. split; [|done]. split_and!; [|done..]. by destruct l.
Qed.

Lemma is_path_single G s x y : is_path G s x [y] → y = s ∧ x = s.
Proof. intros ([= ->] & [= ->] & _). done. Qed.

(** The cost of a walk is defined and not negative. *)
Lemma path_cost_defined G w s x l :
  costs_nonneg G w → is_path G s x l →
  ∃ c, path_cost G w l = Ok c ∧ 0 ≤ c.
Proof.
  intros Hcost. revert x. induction l as [|y l IH] using rev_ind; intros x.
  { by intros ([=] & _). }
  destruct l as [|a l].
  { intros _. by exists 0. }
  intros [-> (z & Hz & Hedge)]%is_path_snoc_inv; [|done].
  destruct (IH z Hz) as (c & Hc & Hpos).
  destruct (Hcost (prev_edge_of (a :: l) z) z y Hedge) as (d & Hd & Hdpos).
  exists (c + d). split.
  - apply path_cost_snoc with z; [done| |done]. by destruct Hz as (_ & ? & _).
  - by apply Qcplus_nonneg_nonneg.
Qed.



End simple_result.

(** ** A heuristic that never overestimates: a shortest path *)

Section shortest.
Context {Node : Type} `{Countable Node}.
Implicit Types (G : Graph (Node:=Node)) (st : state (Node:=Node))
  (e : entry (Node:=Node)) (rest : list (entry (Node:=Node)))
  (s t v p cur nb u : Node) (l path : list Node) (gh : ghost (Node:=Node))
  (h : HeuristicFunction (Node:=Node)).









(** *** The cost of the path along the parent links *)



(** *** Every walk to the target costs at least as much as the priority
    of some item of the frontier *)






(** The default heuristic never overestimates when no cost is negative. *)
Lemma default_never_overestimates G w t :
  costs_nonneg G w → never_overestimates G w _default_heuristic t.
Proof.
  intros Hcost. split; [by intros hv [= <-]|].
  intros v hv l c [= <-] Hl Hc.
  destruct (path_cost_defined G w v t l Hcost Hl) as (c' & Hc' & Hpos).
  congruence.
Qed.


End shortest.

(** ** The properties above on the graphs of the examples *)

Lemma astar_path_returns_path_witness :
  astar_path 20 detour_graph "S" "T" (Some detour_heuristic)
    (AttrName "weight") = Ok ["S"; "B"; "A"; "T"]%string ∧
  is_path detour_graph "S"%string "T"%string ["S"; "B"; "A"; "T"]%string.
Proof.
  assert (astar_path 20 detour_graph "S" "T" (Some detour_heuristic)
    (AttrName "weight") = Ok ["S"; "B"; "A"; "T"]%string) as Hp
    by (by vm_compute).
  split; [exact Hp|].
  exact (astar_path_returns_path 20 detour_graph "S"%string "T"%string
           (Some detour_heuristic) (AttrName "weight") _ Hp).
Defined.


Lemma astar_path_length_fails_alike_witness :
  astar_path 20 unweighted_edge_graph "S" "T" None (AttrName "weight")
    = Raise (Propagated "KeyError") ∧
  astar_path_length 20 unweighted_edge_graph "S" "T" None (AttrName "weight")
    = Raise (Propagated "KeyError").
Proof.
  assert (astar_path 20 unweighted_edge_graph "S" "T" None (AttrName "weight")
    = Raise (Propagated "KeyError")) as Hp by (by vm_compute).
  split; [exact Hp|].
  exact (astar_path_length_fails_alike 20 unweighted_edge_graph "S"%string
           "T"%string None (AttrName "weight") _ Hp).
Defined.

Lemma astar_path_length_source_is_target_witness :
  has_node test_graph "T"%string ∧
  _weight_function test_graph (Callable dependent_weight)
    = Ok dependent_weight ∧
  astar_path_length 1 test_graph "T" "T" (Some detour_heuristic)
    (Callable dependent_weight) = Ok 0.
Proof.
  assert (has_node test_graph "T"%string) as Ht by solve_decide.
  split_and!; [done..|].
  exact (astar_path_length_source_is_target 0 test_graph "T"%string
           (Some detour_heuristic) (Callable dependent_weight)
           dependent_weight Ht eq_refl).
Defined.

Lemma missing_attribute_raises_witness :
  is_multigraph unweighted_edge_graph = false ∧
  has_node unweighted_edge_graph "T"%string ∧
  adj unweighted_edge_graph !! "S"%string
    = Some [("A", weight_attr 1); ("T", ∅)]%string ∧
  (∅ : gmap string Qc) !! "weight"%string = None ∧
  astar_path 1 unweighted_edge_graph "S" "T" None (AttrName "weight")
    = Raise (Propagated "KeyError").
Proof.
  assert (has_node unweighted_edge_graph "T"%string) as Ht by solve_decide.
  assert (adj unweighted_edge_graph !! "S"%string
    = Some [("A", weight_attr 1); ("T", ∅)]%string) as Hadj by reflexivity.
  split_and!; [done..|].
  apply (missing_attribute_raises 0 unweighted_edge_graph "S"%string
           "T"%string "weight"%string _ eq_refl Ht ltac:(done) Hadj).
  - apply NoDup_cons. split; [|apply NoDup_singleton].
    by intros [=]%list_elem_of_singleton.
  - exists ("T"%string, ∅). split; [|done].
    apply elem_of_cons. right. by apply list_elem_of_singleton.
Defined.

Lemma enqueued_table_rounds_witness :
  enqueued tied_frontier !! "A1"%string = Some (1, 0) ∧
  match rounds 2 20 test_graph (attr_weight "weight") _default_heuristic
          "T"%string tied_frontier with
  | Some st' => ∃ c', enqueued st' !! "A1"%string = Some (c', 0) ∧ c' ≤ 1
  | None => False
  end.
Proof.
  assert (enqueued tied_frontier !! "A1"%string = Some (1, 0)) as Hv
    by reflexivity.
  split; [exact Hv|].
  assert (is_Some (rounds 2 20 test_graph (attr_weight "weight")
            _default_heuristic "T"%string tied_frontier))
    as [st' Hr] by solve_decide.
  rewrite Hr.
  exact (enqueued_table_rounds 2 20 test_graph (attr_weight "weight")
           _default_heuristic "T"%string tied_frontier st' "A1"%string
           1 0 Hr Hv).
Defined.

Lemma frontier_costs_rounds_witness :
  match rounds 2 20 detour_graph (attr_weight "weight") detour_heuristic
          "T"%string (init_state "S"%string) with
  | Some st =>
      match queue st with
      | e :: _ =>
          e ∈ queue st ∧
          is_path detour_graph "S"%string (e_node e) (e_path e) ∧
          path_cost detour_graph (attr_weight "weight") (e_path e)
            = Ok (e_dist e)
      | [] => False
      end
  | None => False
  end.
Proof.
  assert (match rounds 2 20 detour_graph (attr_weight "weight")
                  detour_heuristic "T"%string (init_state "S"%string) with
          | Some st => match queue st with _ :: _ => true | [] => false end
          | None => false
          end = true) as Hc by (by vm_compute).
  destruct (rounds 2 20 detour_graph (attr_weight "weight") detour_heuristic
              "T"%string (init_state "S"%string)) as [st|] eqn:Hr; [|done].
  destruct (queue st) as [|e q] eqn:Hq; [done|].
  assert (e ∈ queue st) as He by (rewrite Hq; by left).
  split; [by rewrite <-Hq|].
  exact (frontier_costs_rounds 2 20 detour_graph (attr_weight "weight")
           detour_heuristic "T"%string "S"%string st e Hr He).
Defined.




